(** * A shallow embedding of the Monkey lexer (packages [token] and [lexer])

    The Go sources are translated function by function.  Go's [string] is a
    sequence of bytes and is modelled by [string] (a list of 8-bit [ascii]
    values); [byte] is [ascii]; Go's [int] is taken to be the signed 64-bit
    integer of the common platforms and is modelled by [Z], with the
    two's-complement wrap-around of [+= 1] written out in [int_wrap]; a
    run-time panic (index or slice out of range) is the [Panic] outcome of
    the [result] monad.  The three [for] loops share one fuelled loop,
    [while_ch]; the fuel each caller passes is shown to suffice, so
    [OutOfFuel] never comes out of [NextToken]. *)

From Stdlib Require Import ZArith Lia Bool List.
From Stdlib Require Import Strings.Ascii Strings.String.
From stdpp Require Import base option gmap strings.

Local Open Scope string_scope.
Local Open Scope Z_scope.

(** ** Outcomes of Go code: normal return, panic, or loop budget exhausted *)

Inductive result (A : Type) : Type :=
| Ok (a : A)
| Panic
| OutOfFuel.
Arguments Ok {A} a.
Arguments Panic {A}.
Arguments OutOfFuel {A}.

Definition bind {A B : Type} (k : A -> result B) (r : result A) : result B :=
  match r with
  | Ok a => k a
  | Panic => Panic
  | OutOfFuel => OutOfFuel
  end.

(** The [x ← r; k] notation of stdpp's monads, at [result]. *)
#[global] Instance result_bind : MBind result := @bind.
#[global] Instance result_ret : MRet result := @Ok.

(** ** Go's [int] and string primitives *)

Definition max_int : Z := 2 ^ 63 - 1.
Definition min_int : Z := - 2 ^ 63.

(** Two's-complement wrap-around of a 64-bit signed result. *)
Definition int_wrap (z : Z) : Z := (z + 2 ^ 63) mod 2 ^ 64 - 2 ^ 63.

(** [len(s)] *)
Definition len (s : string) : Z := Z.of_nat (String.length s).

(** [s[i]]: panics when the index is out of range. *)
Definition index (s : string) (i : Z) : result ascii :=
  if i <? 0 then Panic
  else match String.get (Z.to_nat i) s with
       | Some c => Ok c
       | None => Panic
       end.

(** [s[lo:hi]]: panics unless [0 <= lo <= hi <= len(s)]. *)
Definition slice (s : string) (lo hi : Z) : result string :=
  if (0 <=? lo) && (lo <=? hi) && (hi <=? len s)
  then Ok (String.substring (Z.to_nat lo) (Z.to_nat (hi - lo)) s)
  else Panic.

(** [string(ch)] for [ch] of type [byte]: Go converts the integer to the
    UTF-8 encoding of the code point with that value, one byte below 0x80 and
    the two bytes [0xC0 | ch>>6], [0x80 | ch&0x3F] from 0x80 to 0xFF. *)
Definition string_of_byte (c : ascii) : string :=
  let n := N_of_ascii c in
  if (n <? 128)%N then String c EmptyString
  else String (ascii_of_N (N.lor 192 (N.shiftr n 6)))
         (String (ascii_of_N (N.lor 128 (N.land n 63))) EmptyString).

(** ** Package token *)

Module token.

Definition TokenType : Type := string.

Record Token : Type := mkToken { Type_ : TokenType; Literal : string }.

Definition ILLEGAL : TokenType := "ILLEGAL".
Definition EOF : TokenType := "EOF".
Definition IDENT : TokenType := "IDENT".
Definition INT : TokenType := "INT".
Definition ASSIGN : TokenType := "=".
Definition PLUS : TokenType := "+".
Definition MINUS : TokenType := "-".
Definition BANG : TokenType := "!".
Definition ASTERISK : TokenType := "*".
Definition SLASH : TokenType := "/".
Definition LT : TokenType := "<".
Definition GT : TokenType := ">".
Definition COMMA : TokenType := ",".
Definition SEMICOLON : TokenType := ";".
Definition LPAREN : TokenType := "(".
Definition RPAREN : TokenType := ")".
Definition LBRACE : TokenType := "{".
Definition RBRACE : TokenType := "}".
Definition FUNCTION : TokenType := "FUNCTION".
Definition LET : TokenType := "LET".

(** [var keywords = map[string]TokenType{"fn": FUNCTION, "let": LET}] *)
Definition keywords : gmap string TokenType :=
  <["fn" := FUNCTION]> (<["let" := LET]> ∅).

Definition LookupIdent (ident : string) : TokenType :=
  match keywords !! ident with
  | Some tok => tok
  | None => IDENT
  end.

End token.
Import token.

(** ** Package lexer *)

Record Lexer : Type := mkLexer {
  input : string;
  position : Z;
  readPosition : Z;
  ch : ascii
}.

Definition readChar (l : Lexer) : result Lexer :=
  c ← (if len (input l) <=? readPosition l then Ok Ascii.zero
         else index (input l) (readPosition l));
  Ok {| input := input l;
        position := readPosition l;
        readPosition := int_wrap (readPosition l + 1);
        ch := c |}.

Definition New (input : string) : result Lexer :=
  readChar {| input := input; position := 0; readPosition := 0; ch := Ascii.zero |}.

Definition isLetter (ch : ascii) : bool :=
  (("a" <=? ch)%char && (ch <=? "z")%char)
  || (("A" <=? ch)%char && (ch <=? "Z")%char)
  || Ascii.eqb ch "_".

Definition isDigit (ch : ascii) : bool :=
  ("0" <=? ch)%char && (ch <=? "9")%char.

(** The loop condition of [skipWhitespace]. *)
Definition isWhitespace (ch : ascii) : bool :=
  Ascii.eqb ch " " || Ascii.eqb ch "009" || Ascii.eqb ch "010" || Ascii.eqb ch "013".

(** [for cond(l.ch) { l.readChar() }]: the three loops of the lexer have this
    shape.  [fuel] bounds the number of evaluations of the condition. *)
Fixpoint while_ch (cond : ascii -> bool) (fuel : nat) (l : Lexer) : result Lexer :=
  match fuel with
  | O => OutOfFuel
  | S fuel' =>
      if cond (ch l) then l' ← readChar l; while_ch cond fuel' l'
      else Ok l
  end.

(** Each iteration but the last two reads one more byte of the input, so
    [len(input) + 2] evaluations of the condition are always enough. *)
Definition loop_fuel (l : Lexer) : nat := S (S (String.length (input l))).

Definition skipWhitespace (l : Lexer) : result Lexer :=
  while_ch isWhitespace (loop_fuel l) l.

Definition readIdentifier (l : Lexer) : result (string * Lexer) :=
  let position0 := position l in
  l' ← while_ch isLetter (loop_fuel l) l;
  s ← slice (input l') position0 (position l');
  Ok (s, l').

Definition readNumber (l : Lexer) : result (string * Lexer) :=
  let position0 := position l in
  l' ← while_ch isDigit (loop_fuel l) l;
  s ← slice (input l') position0 (position l');
  Ok (s, l').

Definition newToken (tokenType : TokenType) (ch : ascii) : Token :=
  {| Type_ := tokenType; Literal := string_of_byte ch |}.

(** The tail of [NextToken] after the [switch]: [l.readChar(); return tok]. *)
Definition advance (tok : Token) (l : Lexer) : result (Token * Lexer) :=
  l' ← readChar l; Ok (tok, l').

Definition NextToken (l0 : Lexer) : result (Token * Lexer) :=
  l ← skipWhitespace l0;
  match ch l with
  | "="%char => advance (newToken ASSIGN (ch l)) l
  | "+"%char => advance (newToken PLUS (ch l)) l
  | "-"%char => advance (newToken MINUS (ch l)) l
  | "!"%char => advance (newToken BANG (ch l)) l
  | "/"%char => advance (newToken SLASH (ch l)) l
  | "*"%char => advance (newToken ASTERISK (ch l)) l
  | "<"%char => advance (newToken LT (ch l)) l
  | ">"%char => advance (newToken GT (ch l)) l
  | ";"%char => advance (newToken SEMICOLON (ch l)) l
  | ","%char => advance (newToken COMMA (ch l)) l
  | "("%char => advance (newToken LPAREN (ch l)) l
  | ")"%char => advance (newToken RPAREN (ch l)) l
  | "{"%char => advance (newToken LBRACE (ch l)) l
  | "}"%char => advance (newToken RBRACE (ch l)) l
  | _ =>
      if isLetter (ch l) then
        '(lit, l') ← readIdentifier l;
        Ok ({| Type_ := LookupIdent lit; Literal := lit |}, l')
      else if isDigit (ch l) then
        '(lit, l') ← readNumber l;
        Ok ({| Type_ := INT; Literal := lit |}, l')
      else if Ascii.eqb (ch l) Ascii.zero then
        advance {| Type_ := EOF; Literal := "" |} l
      else
        advance (newToken ILLEGAL (ch l)) l
  end.

(** A caller pulling [n] tokens from a lexer, in order. *)
Fixpoint pull (n : nat) (l : Lexer) : result (list Token * Lexer) :=
  match n with
  | O => Ok ([], l)
  | S n' =>
      '(tok, l1) ← NextToken l;
      '(toks, l2) ← pull n' l1;
      Ok (tok :: toks, l2)
  end.

(** The first [n] tokens of an input: [New] followed by [n] calls. *)
Definition scan (n : nat) (input : string) : result (list Token) :=
  l ← New input;
  '(toks, _) ← pull n l;
  Ok toks.

(** ** The unread input and the lexer invariant *)

(** [drop n s] is [s[n:]], or the empty string when [n] is past the end. *)
Fixpoint drop (n : nat) (s : string) : string :=
  match n, s with
  | S n', String _ s' => drop n' s'
  | _, _ => s
  end.

(** The first byte of a string, or the end-of-input sentinel 0. *)
Definition head (s : string) : ascii :=
  match s with
  | String c _ => c
  | EmptyString => Ascii.zero
  end.

Definition tail (s : string) : string :=
  match s with
  | String _ r => r
  | EmptyString => EmptyString
  end.

Fixpoint take_while (p : ascii -> bool) (s : string) : string :=
  match s with
  | String c r => if p c then String c (take_while p r) else EmptyString
  | EmptyString => EmptyString
  end.

Fixpoint drop_while (p : ascii -> bool) (s : string) : string :=
  match s with
  | String c r => if p c then drop_while p r else s
  | EmptyString => EmptyString
  end.

(** Every byte of [s] satisfies [p]. *)
Fixpoint all (p : ascii -> bool) (s : string) : bool :=
  match s with
  | String c r => p c && all p r
  | EmptyString => true
  end.

(** The last byte of a string, if any. *)
Fixpoint last (s : string) : option ascii :=
  match s with
  | EmptyString => None
  | String c r => match r with EmptyString => Some c | String _ _ => last r end
  end.

(** The input from the current character on. *)
Definition rest (l : Lexer) : string := drop (Z.to_nat (position l)) (input l).

(** The state invariant of a lexer: [position] is a valid non-negative
    [int], [readPosition] is [position + 1] in Go's arithmetic, and [ch] is
    the byte at [position], or 0 past the end. *)
Record wf (l : Lexer) : Prop := mk_wf {
  wf_position : 0 <= position l <= max_int;
  wf_readPosition : readPosition l = int_wrap (position l + 1);
  wf_ch : ch l = head (rest l)
}.

(** The states a caller can observe: the result of [New], and the state left
    by any call of [NextToken] that returned. *)
Inductive reachable (inp : string) : Lexer -> Prop :=
| reachable_New l : New inp = Ok l -> reachable inp l
| reachable_NextToken l tok l' :
    reachable inp l -> NextToken l = Ok (tok, l') -> reachable inp l'.

(** ** The lexer as a function of the unread input *)

(** The [switch] of [NextToken] as a table from bytes to token types. *)
Definition symbol_type (c : ascii) : option TokenType :=
  match c with
  | "="%char => Some ASSIGN
  | "+"%char => Some PLUS
  | "-"%char => Some MINUS
  | "!"%char => Some BANG
  | "/"%char => Some SLASH
  | "*"%char => Some ASTERISK
  | "<"%char => Some LT
  | ">"%char => Some GT
  | ";"%char => Some SEMICOLON
  | ","%char => Some COMMA
  | "("%char => Some LPAREN
  | ")"%char => Some RPAREN
  | "{"%char => Some LBRACE
  | "}"%char => Some RBRACE
  | _ => None
  end.

(** [NextToken] after [skipWhitespace], with the [switch] read off
    [symbol_type]. *)
Definition dispatch (l : Lexer) : result (Token * Lexer) :=
  match symbol_type (ch l) with
  | Some ty => advance (newToken ty (ch l)) l
  | None =>
      if isLetter (ch l) then
        '(lit, l') ← readIdentifier l;
        Ok ({| Type_ := LookupIdent lit; Literal := lit |}, l')
      else if isDigit (ch l) then
        '(lit, l') ← readNumber l;
        Ok ({| Type_ := INT; Literal := lit |}, l')
      else if Ascii.eqb (ch l) Ascii.zero then
        advance {| Type_ := EOF; Literal := "" |} l
      else
        advance (newToken ILLEGAL (ch l)) l
  end.

(** The 256 byte values, for facts checked byte by byte. *)
Definition all_bytes : list ascii := map ascii_of_nat (seq 0 256).

Definition is_symbol (c : ascii) : bool :=
  match symbol_type c with Some _ => true | None => false end.

(** One call of [NextToken] seen from the unread input [s]: the token and
    the input left unread. *)
Definition next (s : string) : Token * string :=
  let s1 := drop_while isWhitespace s in
  let c := head s1 in
  match symbol_type c with
  | Some ty => (newToken ty c, tail s1)
  | None =>
      if isLetter c then
        (mkToken (LookupIdent (take_while isLetter s1)) (take_while isLetter s1),
         drop_while isLetter s1)
      else if isDigit c then
        (mkToken INT (take_while isDigit s1), drop_while isDigit s1)
      else if Ascii.eqb c Ascii.zero then (mkToken EOF "", tail s1)
      else (newToken ILLEGAL c, tail s1)
  end.

Fixpoint nexts (n : nat) (s : string) : list Token :=
  match n with
  | O => []
  | S n' => fst (next s) :: nexts n' (snd (next s))
  end.

(** The state after one [readChar] from a state satisfying the invariant. *)
Definition shift (l : Lexer) : Lexer :=
  {| input := input l;
     position := position l + 1;
     readPosition := int_wrap (position l + 2);
     ch := head (tail (rest l)) |}.

(** The state [readChar] leaves, whenever it returns. *)
Definition advanced (l : Lexer) : Lexer :=
  {| input := input l;
     position := readPosition l;
     readPosition := int_wrap (readPosition l + 1);
     ch := head (drop (Z.to_nat (readPosition l)) (input l)) |}.

(** The number of input bytes [readChar] has yet to read. *)
Definition unread (l : Lexer) : nat :=
  if readPosition l <? 0 then 0%nat
  else Z.to_nat (len (input l) - readPosition l).

(** ** Vocabulary of the specification *)

(** The byte classes of the specification, in the order [NextToken] tests
    them. *)
Inductive byte_class : Type :=
| Whitespace | Symbol | Letter | Digit | EndOfInput | Illegal.

Definition classify (c : ascii) : byte_class :=
  if isWhitespace c then Whitespace
  else if is_symbol c then Symbol
  else if isLetter c then Letter
  else if isDigit c then Digit
  else if Ascii.eqb c Ascii.zero then EndOfInput
  else Illegal.

(** The tests of the specification's classes, as a list of flags. *)
Definition class_flags (c : ascii) : list bool :=
  [isWhitespace c; is_symbol c; isLetter c; isDigit c; Ascii.eqb c Ascii.zero;
   negb (isWhitespace c || is_symbol c || isLetter c || isDigit c
         || Ascii.eqb c Ascii.zero)].

Definition count_true (bs : list bool) : nat :=
  List.length (filter (fun b => Bool.eqb b true) bs).

(** An input without the byte 0, which the lexer reserves as its sentinel. *)
Definition no_nul (s : string) : bool :=
  all (fun c => negb (Ascii.eqb c Ascii.zero)) s.

Definition is_ascii (c : ascii) : bool := (N_of_ascii c <? 128)%N.

(** The number of lexemes of an input, following the specification: a byte
    starts a lexeme unless it is whitespace, or a letter that continues a run
    of letters, or a digit that continues a run of digits. *)
Definition starts_lexeme (prev : option ascii) (c : ascii) : bool :=
  negb (isWhitespace c)
  && negb (isLetter c && match prev with Some p => isLetter p | None => false end)
  && negb (isDigit c && match prev with Some p => isDigit p | None => false end).

Fixpoint count_from (prev : option ascii) (s : string) : nat :=
  match s with
  | String c r => ((if starts_lexeme prev c then 1 else 0) + count_from (Some c) r)%nat
  | EmptyString => 0%nat
  end.

Definition count_lexemes (s : string) : nat := count_from None s.

(** Once an EOF token appears in a token sequence, every later token is the
    EOF token with the empty literal. *)
Definition EOF_repeats (toks : list Token) : Prop :=
  forall (i j : nat) (ti tj : Token),
    (i <= j)%nat -> toks !! i = Some ti -> Type_ ti = EOF ->
    toks !! j = Some tj -> tj = mkToken EOF "".

(** A point between two lexemes: the bytes on the two sides are not two
    letters of one identifier nor two digits of one number. *)
Definition boundary (x y : string) : bool :=
  match last x, y with
  | Some a, String b _ => negb (isLetter a && isLetter b) && negb (isDigit a && isDigit b)
  | _, _ => true
  end.

(** [b] is [a] with one whitespace byte inserted between two lexemes. *)
Inductive ws_insert : string -> string -> Prop :=
| ws_insert_at x y w :
    isWhitespace w = true -> boundary x y = true ->
    ws_insert (x +:+ y) (x +:+ String w y).

(** Inputs that differ only by insertions and removals of whitespace between
    lexemes. *)
Inductive ws_equiv : string -> string -> Prop :=
| ws_equiv_refl a : ws_equiv a a
| ws_equiv_insert a b : ws_insert a b -> ws_equiv a b
| ws_equiv_remove a b : ws_insert b a -> ws_equiv a b
| ws_equiv_trans a b c : ws_equiv a b -> ws_equiv b c -> ws_equiv a c.

(** The literal contains no whitespace byte. *)
Definition no_whitespace (s : string) : bool := all (fun c => negb (isWhitespace c)) s.

Definition fixed_symbols : list TokenType :=
  [ASSIGN; PLUS; MINUS; BANG; SLASH; ASTERISK; LT; GT; SEMICOLON; COMMA;
   LPAREN; RPAREN; LBRACE; RBRACE].

(** The tokens [NextToken] can return, by the branch that builds them. *)
Inductive lexeme_token : Token -> Prop :=
| token_symbol c ty :
    symbol_type c = Some ty -> lexeme_token (mkToken ty (String c ""))
| token_word w :
    w <> "" -> all isLetter w = true -> lexeme_token (mkToken (LookupIdent w) w)
| token_int w :
    w <> "" -> all isDigit w = true -> lexeme_token (mkToken INT w)
| token_eof : lexeme_token (mkToken EOF "")
| token_illegal c :
    classify c = Illegal -> lexeme_token (mkToken ILLEGAL (string_of_byte c)).

(** ** Vocabulary of the further properties *)

(** The bytes of [s] that are not whitespace, in order. *)
Fixpoint strip_whitespace (s : string) : string :=
  match s with
  | String c r =>
      if isWhitespace c then strip_whitespace r else String c (strip_whitespace r)
  | EmptyString => EmptyString
  end.

(** The literals of a token sequence, one after the other. *)
Definition literals (toks : list Token) : string :=
  fold_right (fun t acc => Literal t +:+ acc) EmptyString toks.

(** ASCII text: every byte is below 0x80 and none is the byte 0. *)
Definition ascii_text (s : string) : bool :=
  all (fun c => is_ascii c && negb (Ascii.eqb c Ascii.zero)) s.

(** * Properties *)

Example scan_let_five :
  scan 7 "let five = 5;" =
  Ok [mkToken LET "let"; mkToken IDENT "five"; mkToken ASSIGN "=";
      mkToken INT "5"; mkToken SEMICOLON ";"; mkToken EOF ""; mkToken EOF ""].
Proof. vm_compute. reflexivity. Qed.

Example scan_fn :
  scan 13 "fn(x, y) { x + y; }" =
  Ok [mkToken FUNCTION "fn"; mkToken LPAREN "("; mkToken IDENT "x";
      mkToken COMMA ","; mkToken IDENT "y"; mkToken RPAREN ")";
      mkToken LBRACE "{"; mkToken IDENT "x"; mkToken PLUS "+";
      mkToken IDENT "y"; mkToken SEMICOLON ";"; mkToken RBRACE "}";
      mkToken EOF ""].
Proof. vm_compute. reflexivity. Qed.

Example scan_digit_letter :
  scan 3 "1a" = Ok [mkToken INT "1"; mkToken IDENT "a"; mkToken EOF ""].
Proof. vm_compute. reflexivity. Qed.

Example scan_empty : scan 2 "" = Ok [mkToken EOF ""; mkToken EOF ""].
Proof. vm_compute. reflexivity. Qed.

Example scan_illegal : scan 2 "@" = Ok [mkToken ILLEGAL "@"; mkToken EOF ""].
Proof. vm_compute. reflexivity. Qed.

Example scan_symbols :
  scan 15 "=+-!/*<>;,(){}" =
  Ok [mkToken ASSIGN "="; mkToken PLUS "+"; mkToken MINUS "-"; mkToken BANG "!";
      mkToken SLASH "/"; mkToken ASTERISK "*"; mkToken LT "<"; mkToken GT ">";
      mkToken SEMICOLON ";"; mkToken COMMA ","; mkToken LPAREN "(";
      mkToken RPAREN ")"; mkToken LBRACE "{"; mkToken RBRACE "}";
      mkToken EOF ""].
Proof. vm_compute. reflexivity. Qed.

(** Tab, line feed, carriage return and space are skipped. *)
Example scan_whitespace :
  scan 3 (String "009" (String "010" (String "013" " a1 ")))
  = Ok [mkToken IDENT "a"; mkToken INT "1"; mkToken EOF ""].
Proof. vm_compute. reflexivity. Qed.

(** ** Integers *)

Lemma int_wrap_small z : min_int <= z <= max_int -> int_wrap z = z.
Proof.
  unfold int_wrap, min_int, max_int. intros H.
  rewrite Z.mod_small; lia.
Qed.

Lemma int_wrap_range z : min_int <= int_wrap z <= max_int.
Proof.
  unfold int_wrap, min_int, max_int.
  pose proof (Z.mod_pos_bound (z + 2 ^ 63) (2 ^ 64)). lia.
Qed.

Lemma int_wrap_overflow : int_wrap (max_int + 1) = min_int.
Proof. reflexivity. Qed.

(** ** Strings *)

Lemma drop_empty n : drop n "" = "".
Proof. by destruct n. Qed.

Lemma drop_tail n s : drop (S n) s = tail (drop n s).
Proof.
  revert s. induction n as [|n IH]; intros [|c r]; try done.
  apply (IH r).
Qed.

Lemma length_drop n s : String.length (drop n s) = (String.length s - n)%nat.
Proof.
  revert s. induction n as [|n IH]; intros [|c r]; simpl; try done; lia.
Qed.

Lemma drop_all n s : (String.length s <= n)%nat -> drop n s = "".
Proof.
  intros H. pose proof (length_drop n s) as Hl.
  destruct (drop n s); [done | simpl in Hl; lia].
Qed.

Lemma get_drop n s :
  String.get n s = match drop n s with String c _ => Some c | EmptyString => None end.
Proof.
  revert n. induction s as [|c r IH]; intros [|n]; simpl; done.
Qed.

Lemma substring_drop n m s : String.substring n m s = String.substring 0 m (drop n s).
Proof.
  revert s. induction n as [|n IH]; intros s; [done|].
  destruct s as [|c r]; simpl; [by destruct m | apply IH].
Qed.

Lemma substring_take_while p s :
  String.substring 0 (String.length (take_while p s)) s = take_while p s.
Proof.
  induction s as [|c r IH]; simpl; [done|].
  destruct (p c); simpl; [by rewrite IH | done].
Qed.

Lemma length_take_while p s : (String.length (take_while p s) <= String.length s)%nat.
Proof.
  induction s as [|c r IH]; simpl; [done|].
  destruct (p c); simpl; lia.
Qed.

(** ** Bytes *)

Lemma byte_forall (P : ascii -> bool) :
  forallb P all_bytes = true -> forall c, P c = true.
Proof.
  intros H c. rewrite forallb_forall in H. apply H.
  rewrite <- (ascii_nat_embedding c). apply in_map, in_seq.
  pose proof (nat_ascii_bounded c). lia.
Qed.

Lemma symbol_type_facts c :
  match symbol_type c with
  | Some ty =>
      negb (isLetter c) && negb (isDigit c) && negb (isWhitespace c)
      && negb (Ascii.eqb c Ascii.zero) && String.eqb ty (String c "")
      && String.eqb (string_of_byte c) (String c "")
      && existsb (String.eqb ty) fixed_symbols
  | None => true
  end = true.
Proof. revert c; apply byte_forall; vm_compute; reflexivity. Qed.

Lemma symbol_type_Some c ty :
  symbol_type c = Some ty ->
  isLetter c = false /\ isDigit c = false /\ isWhitespace c = false
  /\ c <> Ascii.zero /\ ty = String c "" /\ string_of_byte c = String c ""
  /\ In ty fixed_symbols.
Proof.
  intros H. pose proof (symbol_type_facts c) as F. rewrite H in F.
  repeat (apply andb_prop in F; destruct F as [F ?]).
  repeat match goal with
         | H : negb _ = true |- _ => apply negb_true_iff in H
         | H : String.eqb _ _ = true |- _ => apply String.eqb_eq in H
         end.
  repeat split; try assumption.
  - intros ->. discriminate.
  - apply existsb_exists in H0 as (t & Hin & Ht).
    apply String.eqb_eq in Ht. by subst.
Qed.

Lemma class_exclusive_bool c :
  negb (isLetter c && isDigit c) && negb (isLetter c && isWhitespace c)
  && negb (isDigit c && isWhitespace c)
  && negb (Ascii.eqb c Ascii.zero && (isLetter c || isDigit c || isWhitespace c))
  = true.
Proof. revert c; apply byte_forall; vm_compute; reflexivity. Qed.

Lemma isLetter_facts c :
  isLetter c = true ->
  isDigit c = false /\ isWhitespace c = false /\ c <> Ascii.zero.
Proof.
  intros H. pose proof (class_exclusive_bool c) as F. rewrite H in F.
  destruct (isDigit c), (isWhitespace c), (Ascii.eqb_spec c Ascii.zero);
    try discriminate; done.
Qed.

Lemma isDigit_facts c :
  isDigit c = true ->
  isLetter c = false /\ isWhitespace c = false /\ c <> Ascii.zero.
Proof.
  intros H. pose proof (class_exclusive_bool c) as F. rewrite H in F.
  destruct (isLetter c), (isWhitespace c), (Ascii.eqb_spec c Ascii.zero);
    try discriminate; done.
Qed.

Lemma class_flags_one c : count_true (class_flags c) = 1%nat.
Proof.
  assert (Nat.eqb (count_true (class_flags c)) 1 = true) as H
    by (revert c; apply byte_forall; vm_compute; reflexivity).
  by apply Nat.eqb_eq in H.
Qed.

Lemma string_of_byte_ascii c : is_ascii c = true -> string_of_byte c = String c "".
Proof. unfold is_ascii, string_of_byte. by intros ->. Qed.

Lemma string_of_byte_no_whitespace c :
  isWhitespace c = false -> no_whitespace (string_of_byte c) = true.
Proof.
  assert (isWhitespace c || no_whitespace (string_of_byte c) = true) as H
    by (revert c; apply byte_forall; vm_compute; reflexivity).
  intros E. by rewrite E in H.
Qed.

Lemma string_of_byte_length c :
  String.length (string_of_byte c) = (if is_ascii c then 1 else 2)%nat.
Proof. unfold string_of_byte, is_ascii. by destruct (_ <? _)%N. Qed.

(** ** The [result] monad *)

Lemma bind_Ok {A B} (r : result A) (k : A -> result B) (b : B) :
  (a ← r; k a) = Ok b -> exists a, r = Ok a /\ k a = Ok b.
Proof. destruct r as [a| |]; simpl; [eauto | done | done]. Qed.

(** ** One character advance *)

Lemma rest_nonempty l :
  0 <= position l -> rest l <> "" -> position l < len (input l).
Proof.
  intros Hp Hne. unfold rest, len in *.
  destruct (Z_lt_le_dec (position l) (Z.of_nat (String.length (input l)))); [done|].
  exfalso. apply Hne, drop_all. lia.
Qed.

Lemma length_rest l :
  0 <= position l ->
  Z.of_nat (String.length (rest l)) = Z.max 0 (len (input l) - position l).
Proof. intros Hp. unfold rest, len. rewrite length_drop. lia. Qed.

Lemma rest_shift l : 0 <= position l -> rest (shift l) = tail (rest l).
Proof.
  intros Hp. unfold rest, shift. simpl.
  replace (Z.to_nat (position l + 1)) with (S (Z.to_nat (position l))) by lia.
  apply drop_tail.
Qed.

Lemma readChar_position l l' :
  readChar l = Ok l' ->
  input l' = input l /\ position l' = readPosition l
  /\ readPosition l' = int_wrap (position l' + 1).
Proof.
  unfold readChar. intros H. apply bind_Ok in H as (c & _ & [= <-]). done.
Qed.

Lemma wf_shift l : wf l -> position l < max_int -> wf (shift l).
Proof.
  intros [Hp Hr Hc] Hlt. split; simpl.
  - lia.
  - f_equal. lia.
  - by rewrite rest_shift by lia.
Qed.

Lemma readChar_wf l : wf l -> position l < max_int -> readChar l = Ok (shift l).
Proof.
  intros [Hp Hr Hc] Hlt. unfold readChar, shift.
  rewrite Hr, int_wrap_small by (unfold min_int, max_int in *; lia).
  replace (position l + 1 + 1) with (position l + 2) by lia.
  assert (drop (Z.to_nat (position l + 1)) (input l) = tail (rest l)) as Hd.
  { unfold rest. rewrite <- drop_tail. f_equal. lia. }
  destruct (Z.leb_spec (len (input l)) (position l + 1)) as [Hle|Hgt]; simpl.
  - rewrite <- Hd, drop_all by (unfold len in Hle; lia). done.
  - unfold index. destruct (Z.ltb_spec (position l + 1) 0) as [?|_]; [lia|].
    rewrite get_drop, Hd.
    destruct (tail (rest l)) as [|c r] eqn:E; [|done].
    pose proof (length_drop (Z.to_nat (position l + 1)) (input l)) as Hl.
    rewrite Hd in Hl. simpl in Hl. unfold len in Hgt. lia.
Qed.

Lemma readChar_wf_inv l l' :
  wf l -> readChar l = Ok l' -> position l < max_int /\ l' = shift l.
Proof.
  intros Hwf H.
  destruct (Z_lt_le_dec (position l) max_int) as [Hlt|Hge].
  - rewrite (readChar_wf l Hwf Hlt) in H. by injection H as <-.
  - exfalso. destruct Hwf as [Hp Hr _].
    assert (position l = max_int) as Hmax by lia.
    unfold readChar in H. rewrite Hr, Hmax, int_wrap_overflow in H.
    destruct (Z.leb_spec (len (input l)) min_int) as [Hle|_].
    + unfold len, min_int in Hle. lia.
    + done.
Qed.

(** ** The loops *)

Section Loops.

(** The condition of a loop of the lexer: it fails on the sentinel. *)
Variable cond : ascii -> bool.
Hypothesis cond_zero : cond Ascii.zero = false.

(** From a state satisfying the invariant the loop returns on the first
    byte, from the current one on, that fails the condition. *)
Lemma while_ch_spec fuel :
  forall l,
    wf l -> len (input l) <= max_int ->
    (String.length (take_while cond (rest l)) < fuel)%nat ->
    exists l',
      while_ch cond fuel l = Ok l' /\ wf l' /\ input l' = input l
      /\ position l' = position l + Z.of_nat (String.length (take_while cond (rest l)))
      /\ rest l' = drop_while cond (rest l).
Proof.
  induction fuel as [|fuel IH]; intros l Hwf Hlen Hfuel; [lia|].
  simpl. rewrite (wf_ch l Hwf).
  destruct (rest l) as [|c r] eqn:E; simpl in *.
  { rewrite cond_zero. exists l. rewrite ?E. split_and!; try done; lia. }
  destruct (cond c) eqn:Hc; simpl in *.
  2: { exists l. rewrite ?E. split_and!; try done; lia. }
  assert (position l < max_int) as Hlt.
  { pose proof (rest_nonempty l) as Hn. rewrite E in Hn.
    pose proof (wf_position l Hwf). specialize (Hn ltac:(lia) ltac:(done)). lia. }
  rewrite (readChar_wf l Hwf Hlt). simpl.
  assert (rest (shift l) = r) as Hr.
  { rewrite rest_shift by apply Hwf. by rewrite E. }
  destruct (IH (shift l)) as (l' & Hrun & Hwf' & Hin & Hpos & Hrest).
  - by apply wf_shift.
  - done.
  - rewrite Hr. lia.
  - exists l'. rewrite Hr in *. simpl in *. split_and!; try done; lia.
Qed.

Lemma while_ch_keeps fuel :
  forall l l', wf l -> while_ch cond fuel l = Ok l' -> wf l' /\ input l' = input l.
Proof.
  induction fuel as [|fuel IH]; intros l l' Hwf H; [done|].
  simpl in H. destruct (cond (ch l)).
  - apply bind_Ok in H as (l1 & H1 & H2).
    apply (readChar_wf_inv l l1 Hwf) in H1 as [Hlt ->].
    apply IH in H2 as [? ?]; [done | by apply wf_shift].
  - by injection H as <-.
Qed.

Lemma loop_fuel_enough l :
  (String.length (take_while cond (rest l)) < loop_fuel l)%nat.
Proof.
  unfold loop_fuel, rest.
  pose proof (length_take_while cond (drop (Z.to_nat (position l)) (input l))).
  pose proof (length_drop (Z.to_nat (position l)) (input l)). lia.
Qed.

(** The body shared by [readIdentifier] and [readNumber]. *)
Lemma read_run_spec l :
  cond (ch l) = true -> wf l -> len (input l) <= max_int ->
  exists l',
    (l' ← while_ch cond (loop_fuel l) l;
     s ← slice (input l') (position l) (position l');
     Ok (s, l')) = Ok (take_while cond (rest l), l')
    /\ wf l' /\ input l' = input l
    /\ position l < position l' <= len (input l)
    /\ rest l' = drop_while cond (rest l).
Proof.
  intros Hc Hwf Hlen.
  destruct (while_ch_spec (loop_fuel l) l Hwf Hlen (loop_fuel_enough l))
    as (l' & -> & Hwf' & Hin & Hpos & Hrest).
  exists l'. simpl.
  pose proof (wf_position l Hwf) as Hp.
  assert (rest l <> "") as Hne.
  { intros E. rewrite (wf_ch l Hwf), E in Hc. simpl in Hc. congruence. }
  pose proof (rest_nonempty l ltac:(lia) Hne) as Hlt.
  pose proof (length_take_while cond (rest l)) as Hk.
  pose proof (length_rest l ltac:(lia)) as Hlr.
  assert (0 < String.length (take_while cond (rest l)))%nat as Hpos1.
  { assert (cond (head (rest l)) = true) as Hc' by (by rewrite <- (wf_ch l Hwf)).
    destruct (rest l) as [|c r]; [done|]. simpl in *. rewrite Hc'. simpl. lia. }
  unfold slice. rewrite Hin.
  destruct (Z.leb_spec 0 (position l)); [|lia].
  destruct (Z.leb_spec (position l) (position l')); [|lia].
  destruct (Z.leb_spec (position l') (len (input l))); [|lia].
  simpl. rewrite substring_drop. fold (rest l).
  replace (Z.to_nat (position l' - position l))
    with (String.length (take_while cond (rest l))) by lia.
  rewrite substring_take_while. split_and!; try done; lia.
Qed.

End Loops.

(** ** [New] and [NextToken] *)

Lemma New_spec inp :
  New inp = Ok {| input := inp; position := 0; readPosition := 1; ch := head inp |}.
Proof.
  unfold New, readChar. simpl. destruct inp as [|c r]; [done|].
  destruct (Z.leb_spec (len (String c r)) 0) as [H|_]; [|done].
  unfold len in H. simpl in H. lia.
Qed.

Lemma New_wf inp l : New inp = Ok l -> wf l /\ input l = inp /\ rest l = inp /\ position l = 0.
Proof.
  rewrite New_spec. intros [= <-]. split_and!; done.
Qed.

Lemma NextToken_eq l0 : NextToken l0 = (l ← skipWhitespace l0; dispatch l).
Proof.
  unfold NextToken, dispatch. destruct (skipWhitespace l0) as [l| |]; simpl; try done.
  destruct (ch l) as [[] [] [] [] [] [] [] []]; reflexivity.
Qed.

Lemma isWhitespace_zero : isWhitespace Ascii.zero = false.
Proof. reflexivity. Qed.
Lemma isLetter_zero : isLetter Ascii.zero = false.
Proof. reflexivity. Qed.
Lemma isDigit_zero : isDigit Ascii.zero = false.
Proof. reflexivity. Qed.

Lemma skipWhitespace_spec l :
  wf l -> len (input l) <= max_int ->
  exists l',
    skipWhitespace l = Ok l' /\ wf l' /\ input l' = input l
    /\ position l <= position l' <= Z.max (position l) (len (input l))
    /\ rest l' = drop_while isWhitespace (rest l)
    /\ isWhitespace (ch l') = false.
Proof.
  intros Hwf Hlen.
  destruct (while_ch_spec isWhitespace isWhitespace_zero (loop_fuel l) l Hwf Hlen
              (loop_fuel_enough _ l)) as (l' & Hrun & Hwf' & Hin & Hpos & Hrest).
  exists l'. split_and!; try done.
  - lia.
  - pose proof (length_take_while isWhitespace (rest l)).
    pose proof (length_rest l (proj1 (wf_position l Hwf))). lia.
  - rewrite (wf_ch l' Hwf'), Hrest. generalize (rest l) as s.
    induction s as [|c r IH]; simpl; [done|].
    destruct (isWhitespace c) eqn:E; [done|]. simpl. done.
Qed.

Lemma dispatch_spec l :
  wf l -> position l < max_int -> len (input l) <= max_int ->
  isWhitespace (ch l) = false ->
  exists l',
    dispatch l = Ok (fst (next (rest l)), l') /\ wf l' /\ input l' = input l
    /\ position l < position l' <= Z.max (position l) (len (input l)) + 1
    /\ rest l' = snd (next (rest l)).
Proof.
  intros Hwf Hlt Hlen Hws.
  assert (drop_while isWhitespace (rest l) = rest l) as Hdw.
  { rewrite (wf_ch l Hwf) in Hws. destruct (rest l) as [|c r]; [done|].
    simpl in *. by rewrite Hws. }
  pose proof (wf_position l Hwf) as Hp.
  assert (forall tok, exists l',
             advance tok l = Ok (tok, l') /\ wf l' /\ input l' = input l
             /\ position l < position l' <= Z.max (position l) (len (input l)) + 1
             /\ rest l' = tail (rest l)) as Hadv.
  { intros tok. exists (shift l). unfold advance. rewrite (readChar_wf l Hwf Hlt).
    split_and!; try done.
    - by apply wf_shift.
    - simpl. lia.
    - simpl. lia.
    - apply rest_shift. lia. }
  unfold dispatch, next. rewrite Hdw, <- (wf_ch l Hwf).
  destruct (symbol_type (ch l)) as [ty|]; [apply Hadv|].
  destruct (isLetter (ch l)) eqn:HL.
  { destruct (read_run_spec isLetter isLetter_zero l HL Hwf Hlen)
      as (l' & Hrun & Hwf' & Hin & Hpos & Hrest).
    exists l'. unfold readIdentifier. apply bind_Ok in Hrun as Hrun'.
    destruct Hrun' as (l1 & Hw & Hs). rewrite Hw in *. simpl in *.
    apply bind_Ok in Hs as (s & Hs & [= <- <-]). rewrite Hs. simpl.
    split_and!; try done; lia. }
  destruct (isDigit (ch l)) eqn:HD.
  { destruct (read_run_spec isDigit isDigit_zero l HD Hwf Hlen)
      as (l' & Hrun & Hwf' & Hin & Hpos & Hrest).
    exists l'. unfold readNumber. apply bind_Ok in Hrun as Hrun'.
    destruct Hrun' as (l1 & Hw & Hs). rewrite Hw in *. simpl in *.
    apply bind_Ok in Hs as (s & Hs & [= <- <-]). rewrite Hs. simpl.
    split_and!; try done; lia. }
  destruct (Ascii.eqb (ch l) Ascii.zero); apply Hadv.
Qed.

(** One call of [NextToken] from a state satisfying the invariant, with room
    left below the largest [int]: it returns, and the token and the state it
    leaves are those of [next] on the unread input. *)
Lemma NextToken_spec l :
  wf l -> position l < max_int -> len (input l) < max_int ->
  exists l',
    NextToken l = Ok (fst (next (rest l)), l') /\ wf l' /\ input l' = input l
    /\ position l < position l' <= Z.max (position l) (len (input l)) + 1
    /\ rest l' = snd (next (rest l)).
Proof.
  intros Hwf Hlt Hlen. rewrite NextToken_eq.
  destruct (skipWhitespace_spec l Hwf ltac:(lia))
    as (l1 & -> & Hwf1 & Hin1 & Hpos1 & Hrest1 & Hws1).
  simpl.
  destruct (dispatch_spec l1 Hwf1) as (l' & Hd & Hwf' & Hin' & Hpos' & Hrest');
    try done; try (rewrite ?Hin1; lia).
  exists l'.
  assert (next (rest l) = next (rest l1)) as ->.
  { unfold next. rewrite Hrest1.
    assert (forall s, drop_while isWhitespace (drop_while isWhitespace s)
                      = drop_while isWhitespace s) as Hidem.
    { induction s as [|c r IH]; simpl; [done|].
      destruct (isWhitespace c) eqn:E; [done|]. simpl. by rewrite E. }
    by rewrite Hidem. }
  rewrite Hin1 in *. split_and!; try done; lia.
Qed.

Lemma pull_spec n :
  forall l,
    wf l -> Z.max (position l) (len (input l)) + Z.of_nat n <= max_int ->
    exists l',
      pull n l = Ok (nexts n (rest l), l') /\ wf l' /\ input l' = input l.
Proof.
  induction n as [|n IH]; intros l Hwf Hroom.
  { exists l. done. }
  destruct (NextToken_spec l Hwf) as (l1 & H1 & Hwf1 & Hin1 & Hpos1 & Hrest1);
    try lia.
  destruct (IH l1 Hwf1) as (l2 & H2 & Hwf2 & Hin2); [rewrite Hin1; lia|].
  exists l2. simpl. rewrite H1. simpl. rewrite H2. simpl.
  rewrite Hrest1, Hin2, Hin1. done.
Qed.

(** Scanning any input returns, for as many calls as [int] positions allow,
    and produces the tokens of [nexts]. *)
Lemma scan_spec n inp :
  len inp + Z.of_nat n <= max_int -> scan n inp = Ok (nexts n inp).
Proof.
  intros Hroom. unfold scan.
  destruct (New inp) as [l0| |] eqn:HN; try (by rewrite New_spec in HN).
  destruct (New_wf inp l0 HN) as (Hwf & Hin & Hrest & Hpos).
  destruct (pull_spec n l0 Hwf) as (l' & Hp & _); [rewrite Hin, Hpos; unfold len in *; lia|].
  simpl. rewrite Hp, Hrest. done.
Qed.

(** ** Preservation of the invariant by every call that returns *)

Lemma advance_keeps tok l tok' l' :
  wf l -> advance tok l = Ok (tok', l') ->
  wf l' /\ input l' = input l /\ tok' = tok /\ l' = shift l /\ position l < max_int.
Proof.
  intros Hwf H. unfold advance in H. apply bind_Ok in H as (l1 & H1 & [= <- <-]).
  apply (readChar_wf_inv l l1 Hwf) in H1 as [Hlt ->].
  split_and!; try done. by apply wf_shift.
Qed.

Lemma NextToken_keeps l tok l' :
  wf l -> NextToken l = Ok (tok, l') -> wf l' /\ input l' = input l.
Proof.
  intros Hwf H. rewrite NextToken_eq in H.
  apply bind_Ok in H as (l1 & H1 & H).
  apply (while_ch_keeps _ _ _ _ Hwf) in H1 as [Hwf1 Hin1].
  rewrite <- Hin1. clear Hin1 Hwf l. revert H. unfold dispatch.
  assert (forall t, advance t l1 = Ok (tok, l') -> wf l' /\ input l' = input l1) as Hadv.
  { intros t H. by apply (advance_keeps _ _ _ _ Hwf1) in H as (? & ? & _). }
  destruct (symbol_type (ch l1)); [apply Hadv|].
  destruct (isLetter (ch l1)).
  { unfold readIdentifier. intros H.
    apply bind_Ok in H as ([lit l2] & H & [= <- <-]).
    apply bind_Ok in H as (l3 & H3 & H).
    apply bind_Ok in H as (s & _ & [= <- <-]).
    by apply (while_ch_keeps _ _ _ _ Hwf1) in H3. }
  destruct (isDigit (ch l1)).
  { unfold readNumber. intros H.
    apply bind_Ok in H as ([lit l2] & H & [= <- <-]).
    apply bind_Ok in H as (l3 & H3 & H).
    apply bind_Ok in H as (s & _ & [= <- <-]).
    by apply (while_ch_keeps _ _ _ _ Hwf1) in H3. }
  destruct (Ascii.eqb (ch l1) Ascii.zero); apply Hadv.
Qed.

Lemma reachable_wf inp l : reachable inp l -> wf l /\ input l = inp.
Proof.
  induction 1 as [l H | l tok l' _ [IHwf IHin] H].
  - by apply New_wf in H as (? & ? & _).
  - apply (NextToken_keeps _ _ _ IHwf) in H as [? ?]. split; congruence.
Qed.

(** ** The tokens of [next] *)

Lemma all_take_while p s : all p (take_while p s) = true.
Proof.
  induction s as [|c r IH]; simpl; [done|].
  destruct (p c) eqn:E; simpl; [by rewrite E | done].
Qed.

Lemma head_drop_while p s : p Ascii.zero = false -> p (head (drop_while p s)) = false.
Proof.
  intros Hz. induction s as [|c r IH]; simpl; [done|].
  by destruct (p c) eqn:E.
Qed.

Lemma take_while_head p s :
  p Ascii.zero = false -> p (head s) = true -> take_while p s <> "".
Proof.
  intros Hz. destruct s as [|c r]; simpl; [congruence|]. by intros ->.
Qed.

Lemma drop_while_idem p s : drop_while p (drop_while p s) = drop_while p s.
Proof.
  induction s as [|c r IH]; simpl; [done|].
  destruct (p c) eqn:E; [done|]. simpl. by rewrite E.
Qed.

Lemma next_drop_while s : next (drop_while isWhitespace s) = next s.
Proof. unfold next. by rewrite drop_while_idem. Qed.

Lemma classify_Illegal c :
  isWhitespace c = false -> symbol_type c = None -> isLetter c = false ->
  isDigit c = false -> Ascii.eqb c Ascii.zero = false -> classify c = Illegal.
Proof. unfold classify, is_symbol. by intros -> -> -> -> ->. Qed.

Lemma next_shape s : lexeme_token (fst (next s)).
Proof.
  unfold next, newToken.
  pose proof (head_drop_while isWhitespace s isWhitespace_zero) as Hws.
  set (s1 := drop_while isWhitespace s) in *.
  destruct (symbol_type (head s1)) as [ty|] eqn:Hsym; cbn [fst].
  { destruct (symbol_type_Some _ _ Hsym) as (_ & _ & _ & _ & _ & -> & _).
    by constructor. }
  destruct (isLetter (head s1)) eqn:HL; cbn [fst].
  { constructor; [by apply take_while_head | apply all_take_while]. }
  destruct (isDigit (head s1)) eqn:HD; cbn [fst].
  { constructor; [by apply take_while_head | apply all_take_while]. }
  destruct (Ascii.eqb (head s1) Ascii.zero) eqn:HZ; cbn [fst].
  { constructor. }
  constructor. by apply classify_Illegal.
Qed.

(** The token types are pairwise distinct strings, so a token's type tells
    the branch that built it. *)
Lemma LookupIdent_cases s :
  LookupIdent s =
  if String.eqb s "fn" then FUNCTION else if String.eqb s "let" then LET else IDENT.
Proof.
  unfold LookupIdent, keywords.
  destruct (String.eqb_spec s "fn") as [->|Hfn]; [done|].
  rewrite lookup_insert_ne by done.
  destruct (String.eqb_spec s "let") as [->|Hlet]; [done|].
  by rewrite lookup_insert_ne, lookup_empty.
Qed.

Lemma LookupIdent_range s :
  LookupIdent s = FUNCTION /\ s = "fn" \/ LookupIdent s = LET /\ s = "let"
  \/ LookupIdent s = IDENT /\ s <> "fn" /\ s <> "let".
Proof.
  rewrite LookupIdent_cases.
  destruct (String.eqb_spec s "fn"); [by left|].
  destruct (String.eqb_spec s "let"); [by right; left|]. by right; right.
Qed.

Lemma fixed_symbols_length ty : In ty fixed_symbols -> String.length ty = 1%nat.
Proof.
  unfold fixed_symbols. simpl. intros H.
  repeat (destruct H as [<-|H]; [done|]). done.
Qed.

Lemma all_fixed_symbols c ty : symbol_type c = Some ty -> In ty fixed_symbols.
Proof. intros H. by apply symbol_type_Some in H as (_ & _ & _ & _ & _ & _ & ?). Qed.

Lemma LookupIdent_length w : (1 < String.length (LookupIdent w))%nat.
Proof.
  destruct (LookupIdent_range w) as [[E _]|[[E _]|[E _]]]; rewrite E; simpl; lia.
Qed.

Lemma LookupIdent_tags w : LookupIdent w <> EOF /\ LookupIdent w <> ILLEGAL.
Proof.
  destruct (LookupIdent_range w) as [[E _]|[[E _]|[E _]]]; by rewrite E.
Qed.

(** What the type of a returned token says about its literal. *)
Lemma lexeme_token_literal tok :
  lexeme_token tok ->
  (Literal tok = "" <-> Type_ tok = EOF)
  /\ (In (Type_ tok) [IDENT; FUNCTION; LET; INT] -> Literal tok <> "")
  /\ (In (Type_ tok) fixed_symbols -> String.length (Literal tok) = 1%nat)
  /\ (Type_ tok = ILLEGAL ->
      exists c, classify c = Illegal /\ Literal tok = string_of_byte c
                /\ String.length (Literal tok) = (if is_ascii c then 1 else 2)%nat).
Proof.
  intros [c ty Hsym|w Hne Hall|w Hne Hall| |c Hc]; cbn [Type_ Literal].
  - pose proof (fixed_symbols_length _ (all_fixed_symbols _ _ Hsym)) as Hlen.
    split; [|split; [|split]].
    + split; [done|]. intros ->. done.
    + done.
    + done.
    + intros ->. done.
  - destruct (LookupIdent_tags w) as [HE HI].
    split; [|split; [|split]].
    + split; intros ?; done.
    + done.
    + intros H%fixed_symbols_length. pose proof (LookupIdent_length w). lia.
    + done.
  - split; [|split; [|split]].
    + split; intros ?; done.
    + done.
    + intros H%fixed_symbols_length. done.
    + done.
  - split; [|split; [|split]].
    + done.
    + simpl. intros [H|[H|[H|[H|[]]]]]; done.
    + intros H%fixed_symbols_length. done.
    + done.
  - pose proof (string_of_byte_length c) as Hlen.
    split; [|split; [|split]].
    + split; [|done]. intros E. rewrite E in Hlen. by destruct (is_ascii c).
    + simpl. intros [H|[H|[H|[H|[]]]]]; done.
    + intros H%fixed_symbols_length. done.
    + intros _. by exists c.
Qed.

Lemma lexeme_token_keyword tok :
  lexeme_token tok ->
  (Type_ tok = FUNCTION -> Literal tok = "fn")
  /\ (Type_ tok = LET -> Literal tok = "let")
  /\ In (Type_ tok) (fixed_symbols ++ [ILLEGAL; EOF; IDENT; INT; FUNCTION; LET]).
Proof.
  intros [c ty Hsym|w Hne Hall|w Hne Hall| |c Hc]; cbn [Type_ Literal].
  - pose proof (all_fixed_symbols _ _ Hsym) as Hin.
    pose proof (fixed_symbols_length _ Hin) as Hlen.
    split; [|split].
    + intros ->. done.
    + intros ->. done.
    + apply in_or_app. by left.
  - destruct (LookupIdent_range w) as [[E ->]|[[E ->]|[E _]]]; rewrite E;
      (split; [|split]); try done; apply in_or_app; right; simpl; tauto.
  - split; [|split]; try done. apply in_or_app; right; simpl; tauto.
  - split; [|split]; try done. apply in_or_app; right; simpl; tauto.
  - split; [|split]; try done. apply in_or_app; right; simpl; tauto.
Qed.

(** One call from a reachable state, with room below the largest [int]. *)
Lemma NextToken_reachable inp l :
  reachable inp l -> position l < max_int -> len inp < max_int ->
  exists l',
    NextToken l = Ok (fst (next (rest l)), l') /\ reachable inp l'
    /\ rest l' = snd (next (rest l)).
Proof.
  intros Hr Hlt Hlen. destruct (reachable_wf _ _ Hr) as [Hwf Hin].
  destruct (NextToken_spec l Hwf Hlt) as (l' & H & _ & _ & _ & Hrest);
    [by rewrite Hin|].
  exists l'. split_and!; try done. by eapply reachable_NextToken.
Qed.

(** ** Calls from an arbitrary state *)

Lemma readChar_any l : 0 <= readPosition l -> readChar l = Ok (advanced l).
Proof.
  intros Hr. unfold readChar, advanced.
  pose proof (length_drop (Z.to_nat (readPosition l)) (input l)) as Hl.
  destruct (Z.leb_spec (len (input l)) (readPosition l)) as [Hle|Hgt]; simpl.
  - rewrite drop_all by (unfold len in Hle; lia). done.
  - unfold index. destruct (Z.ltb_spec (readPosition l) 0) as [?|_]; [lia|].
    rewrite get_drop.
    destruct (drop (Z.to_nat (readPosition l)) (input l)); [|done].
    simpl in Hl. unfold len in Hgt. lia.
Qed.

Lemma skipWhitespace_id l : isWhitespace (ch l) = false -> skipWhitespace l = Ok l.
Proof. unfold skipWhitespace, loop_fuel. simpl. by intros ->. Qed.

Lemma NextToken_no_whitespace l :
  isWhitespace (ch l) = false -> NextToken l = dispatch l.
Proof. intros H. by rewrite NextToken_eq, skipWhitespace_id. Qed.

Lemma keywords_values ty :
  (exists s, keywords !! s = Some ty) <-> ty = FUNCTION \/ ty = LET.
Proof.
  unfold keywords. split.
  - intros (s & Hs).
    apply lookup_insert_Some in Hs as [[_ <-]|[_ Hs]]; [by left|].
    apply lookup_insert_Some in Hs as [[_ <-]|[_ Hs]]; [by right|].
    by rewrite lookup_empty in Hs.
  - intros [->| ->]; [by exists "fn" | by exists "let"].
Qed.

(** ** Token sequences *)

Lemma next_empty : next "" = (mkToken EOF "", "").
Proof. reflexivity. Qed.

Lemma nexts_empty n : nexts n "" = repeat (mkToken EOF "") n.
Proof. induction n as [|n IH]; simpl; [done|]. by rewrite IH. Qed.

Lemma length_nexts n s : List.length (nexts n s) = n.
Proof. revert s. induction n as [|n IH]; intros s; simpl; [done|]. by rewrite IH. Qed.

Lemma take_while_all p s : all p s = true -> take_while p s = s.
Proof.
  induction s as [|c r IH]; simpl; [done|].
  intros [-> Hr]%andb_prop. by rewrite IH.
Qed.

Lemma drop_while_all p s : all p s = true -> drop_while p s = "".
Proof.
  induction s as [|c r IH]; simpl; [done|].
  intros [-> Hr]%andb_prop. by apply IH.
Qed.

Lemma all_drop_while q p s : all q s = true -> all q (drop_while p s) = true.
Proof.
  induction s as [|c r IH]; simpl; [done|].
  intros H. destruct (p c); [|done].
  apply andb_prop in H as [_ H]. by apply IH.
Qed.

Lemma all_tail q s : all q s = true -> all q (tail s) = true.
Proof. destruct s as [|c r]; simpl; [done|]. by intros [_ H]%andb_prop. Qed.

Lemma isLetter_not_symbol c : isLetter c = true -> symbol_type c = None.
Proof.
  intros HL. destruct (symbol_type c) as [ty|] eqn:E; [|done].
  apply symbol_type_Some in E as (E & _). congruence.
Qed.

(** A non-empty run of letters is one token, built by the identifier
    branch, and nothing is left unread. *)
Lemma next_all_letters s :
  s <> "" -> all isLetter s = true -> next s = (mkToken (LookupIdent s) s, "").
Proof.
  intros Hne Hall. destruct s as [|c r]; [done|].
  pose proof Hall as Hall'. simpl in Hall'. apply andb_prop in Hall' as [HL _].
  destruct (isLetter_facts c HL) as (_ & Hws & _).
  unfold next. cbn [drop_while]. rewrite Hws. cbn [head].
  rewrite (isLetter_not_symbol c HL), HL.
  by rewrite take_while_all, drop_while_all.
Qed.

(** On an input without the byte 0, an EOF token is returned only at the end
    of the input. *)
Lemma next_EOF_no_nul s :
  no_nul s = true -> Type_ (fst (next s)) = EOF ->
  drop_while isWhitespace s = "" /\ next s = (mkToken EOF "", "").
Proof.
  intros Hnn. unfold next, newToken.
  pose proof (all_drop_while _ isWhitespace s Hnn) as Hnn1.
  set (s1 := drop_while isWhitespace s) in *.
  destruct (symbol_type (head s1)) as [ty|] eqn:Hsym; cbn [fst Type_].
  { intros ->. by apply all_fixed_symbols, fixed_symbols_length in Hsym. }
  destruct (isLetter (head s1)); cbn [fst Type_].
  { intros E. by apply LookupIdent_tags in E. }
  destruct (isDigit (head s1)); cbn [fst Type_]; [done|].
  destruct (Ascii.eqb_spec (head s1) Ascii.zero) as [Hz|_]; cbn [fst Type_]; [|done].
  intros _. destruct s1 as [|c r]; [done|].
  simpl in Hz, Hnn1. subst c. done.
Qed.

Lemma no_nul_next s : no_nul s = true -> no_nul (snd (next s)) = true.
Proof.
  intros Hnn. unfold next.
  pose proof (all_drop_while _ isWhitespace s Hnn) as Hnn1.
  set (s1 := drop_while isWhitespace s) in *.
  destruct (symbol_type (head s1)); cbn [snd]; [by apply all_tail|].
  destruct (isLetter (head s1)); cbn [snd]; [by apply all_drop_while|].
  destruct (isDigit (head s1)); cbn [snd]; [by apply all_drop_while|].
  destruct (Ascii.eqb (head s1) Ascii.zero); cbn [snd]; by apply all_tail.
Qed.

Lemma lookup_repeat {A} (x y : A) n (j : nat) : repeat x n !! j = Some y -> y = x.
Proof.
  revert j. induction n as [|n IH]; intros [|j]; simpl; try done.
  - by intros [= <-].
  - apply IH.
Qed.

Lemma nexts_EOF_repeats n :
  forall s, no_nul s = true -> EOF_repeats (nexts n s).
Proof.
  induction n as [|n IH]; intros s Hnn i j ti tj Hij Hi HE Hj; [done|].
  simpl in Hi, Hj. destruct i as [|i].
  - injection Hi as <-.
    destruct (next_EOF_no_nul s Hnn HE) as [_ Hnext].
    rewrite Hnext in Hj. simpl in Hj. destruct j as [|j].
    + by injection Hj as <-.
    + simpl in Hj. rewrite nexts_empty in Hj. by apply lookup_repeat in Hj.
  - destruct j as [|j]; [lia|]. simpl in Hi, Hj.
    apply (IH (snd (next s)) (no_nul_next s Hnn) i j ti tj); [lia|done..].
Qed.

(** ** Counting lexemes *)

Lemma count_from_other p r :
  isLetter p = false -> isDigit p = false ->
  count_from (Some p) r = count_from None r.
Proof.
  intros HL HD. destruct r as [|c r]; simpl; [done|].
  unfold starts_lexeme. by rewrite HL, HD, !andb_false_r.
Qed.

Lemma count_from_letter p r :
  isLetter p = true ->
  count_from (Some p) r = count_from None (drop_while isLetter r).
Proof.
  revert p. induction r as [|c r IH]; intros p HL; simpl; [done|].
  destruct (isLetter c) eqn:Hc.
  - unfold starts_lexeme. rewrite Hc, HL. simpl. rewrite andb_false_r. simpl.
    by apply IH.
  - simpl. unfold starts_lexeme. rewrite Hc.
    destruct (isLetter_facts p HL) as (-> & _). by rewrite !andb_false_r.
Qed.

Lemma count_from_digit p r :
  isDigit p = true ->
  count_from (Some p) r = count_from None (drop_while isDigit r).
Proof.
  revert p. induction r as [|c r IH]; intros p HD; simpl; [done|].
  destruct (isDigit c) eqn:Hc.
  - unfold starts_lexeme. rewrite Hc, HD. simpl. rewrite !andb_false_r. simpl.
    by apply IH.
  - simpl. unfold starts_lexeme. rewrite Hc.
    destruct (isDigit_facts p HD) as (-> & _). by rewrite !andb_false_r.
Qed.

Lemma isWhitespace_facts c :
  isWhitespace c = true -> isLetter c = false /\ isDigit c = false.
Proof.
  intros H. pose proof (class_exclusive_bool c) as F. rewrite H in F.
  destruct (isLetter c), (isDigit c); try discriminate; done.
Qed.

Lemma count_lexemes_skip s :
  count_lexemes s = count_lexemes (drop_while isWhitespace s).
Proof.
  unfold count_lexemes. induction s as [|c r IH]; simpl; [done|].
  destruct (isWhitespace c) eqn:Hws; [|done].
  destruct (isWhitespace_facts c Hws) as [HL HD].
  unfold starts_lexeme. rewrite Hws. simpl.
  by rewrite count_from_other.
Qed.

(** Each call that finds a byte to classify consumes exactly one lexeme. *)
Lemma count_lexemes_next s :
  drop_while isWhitespace s <> "" ->
  count_lexemes s = S (count_lexemes (snd (next s))).
Proof.
  intros Hne. rewrite count_lexemes_skip. unfold next.
  pose proof (head_drop_while isWhitespace s isWhitespace_zero) as Hws.
  destruct (drop_while isWhitespace s) as [|c r]; [done|]. clear Hne.
  cbn [head tail] in *. unfold count_lexemes at 1. cbn [count_from].
  unfold starts_lexeme at 1. rewrite Hws, !andb_false_r. simpl.
  f_equal. unfold count_lexemes.
  destruct (symbol_type c) as [ty|] eqn:Hsym; cbn [snd].
  { apply symbol_type_Some in Hsym as (HL & HD & _). by apply count_from_other. }
  destruct (isLetter c) eqn:HL; cbn [snd].
  { by apply count_from_letter. }
  destruct (isDigit c) eqn:HD; cbn [snd].
  { by apply count_from_digit. }
  destruct (Ascii.eqb c Ascii.zero); cbn [snd]; by apply count_from_other.
Qed.

Lemma count_lexemes_zero s :
  count_lexemes s = 0%nat -> next s = (mkToken EOF "", "").
Proof.
  intros H0. destruct (drop_while isWhitespace s) as [|c r] eqn:E.
  - by rewrite <- next_drop_while, E.
  - assert (drop_while isWhitespace s <> "") as Hne by (by rewrite E).
    apply count_lexemes_next in Hne. lia.
Qed.

(** The first [count_lexemes s] calls consume the lexemes of [s]; every later
    call returns EOF. *)
Lemma nexts_count_lexemes k :
  forall s,
    count_lexemes s = k ->
    exists toks,
      List.length toks = k
      /\ (forall n, nexts (k + n) s = (toks ++ repeat (mkToken EOF "") n)%list)
      /\ (no_nul s = true -> Forall (fun t => Type_ t <> EOF) toks).
Proof.
  induction k as [|k IH]; intros s Hk.
  - exists []. split; [done|]. split; [|done].
    intros [|n]; simpl; [done|].
    by rewrite (count_lexemes_zero s Hk), nexts_empty.
  - assert (drop_while isWhitespace s <> "") as Hne.
    { intros E. rewrite count_lexemes_skip, E in Hk. done. }
    pose proof (count_lexemes_next s Hne) as Hc.
    destruct (IH (snd (next s))) as (toks & Hlen & Hn & Hall); [lia|].
    exists (fst (next s) :: toks). split; [simpl; lia|]. split.
    + intros n. simpl. by rewrite Hn.
    + intros Hnn. constructor; [|by apply Hall, no_nul_next].
      intros HE. by apply (next_EOF_no_nul s Hnn) in HE as [? _].
Qed.

(** ** Termination of every call, from any state *)

Lemma readChar_returns_or_panics l : readChar l <> OutOfFuel.
Proof.
  unfold readChar, index.
  destruct (len (input l) <=? readPosition l); [done|].
  destruct (readPosition l <? 0); [done|].
  by destruct (String.get _ _).
Qed.

Lemma slice_returns_or_panics s lo hi : slice s lo hi <> OutOfFuel.
Proof. unfold slice. by destruct (_ && _). Qed.

Section LoopTermination.

Variable cond : ascii -> bool.
Hypothesis cond_zero : cond Ascii.zero = false.

Lemma while_ch_terminates fuel :
  forall l,
    min_int <= readPosition l <= max_int ->
    (unread l + 2 <= fuel)%nat ->
    while_ch cond fuel l <> OutOfFuel.
Proof.
  induction fuel as [|fuel IH]; intros l Hrange Hfuel; [lia|].
  simpl. destruct (cond (ch l)); [|done].
  destruct (Z_lt_le_dec (readPosition l) 0) as [Hneg|Hpos].
  { unfold readChar, index.
    destruct (Z.leb_spec (len (input l)) (readPosition l)) as [Hle|_].
    - unfold len in Hle. lia.
    - destruct (Z.ltb_spec (readPosition l) 0); [done | lia]. }
  rewrite (readChar_any l Hpos). simpl.
  destruct (Z_le_gt_dec (len (input l)) (readPosition l)) as [Hend|Hin].
  { destruct fuel as [|fuel]; [lia|]. simpl.
    rewrite drop_all by (unfold len in Hend; lia). simpl. by rewrite cond_zero. }
  apply IH.
  - simpl. apply int_wrap_range.
  - unfold unread in *. simpl.
    destruct (Z.ltb_spec (readPosition l) 0) as [?|_]; [lia|].
    destruct (Z.ltb_spec (int_wrap (readPosition l + 1)) 0) as [?|Hw]; [lia|].
    destruct (Z_lt_le_dec (readPosition l) max_int) as [Hlt|Hge].
    + rewrite int_wrap_small by (unfold min_int, max_int in *; lia). lia.
    + assert (readPosition l = max_int) as E by lia.
      rewrite E, int_wrap_overflow in Hw. unfold min_int in Hw. lia.
Qed.

Lemma while_ch_range fuel :
  forall l l',
    while_ch cond fuel l = Ok l' ->
    min_int <= readPosition l <= max_int ->
    input l' = input l /\ min_int <= readPosition l' <= max_int.
Proof.
  induction fuel as [|fuel IH]; intros l l' H Hrange; [done|].
  simpl in H. destruct (cond (ch l)); [|by injection H as <-].
  apply bind_Ok in H as (l1 & H1 & H).
  apply readChar_position in H1 as (Hin & _ & Hrp).
  apply IH in H as [? ?]; [split; congruence|].
  rewrite Hrp. apply int_wrap_range.
Qed.

Lemma unread_bound l : (unread l + 2 <= loop_fuel l)%nat.
Proof.
  unfold unread, loop_fuel, len.
  destruct (Z.ltb_spec (readPosition l) 0); lia.
Qed.

Lemma bind_terminates {A B} (r : result A) (k : A -> result B) :
  r <> OutOfFuel -> (forall a, r = Ok a -> k a <> OutOfFuel) ->
  (a ← r; k a) <> OutOfFuel.
Proof. destruct r; simpl; [by eauto | done | done]. Qed.

Lemma read_run_terminates l :
  min_int <= readPosition l <= max_int ->
  (l' ← while_ch cond (loop_fuel l) l;
   s ← slice (input l') (position l) (position l');
   Ok (s, l')) <> OutOfFuel.
Proof.
  intros Hrange. apply bind_terminates.
  - apply while_ch_terminates; [done|apply unread_bound].
  - intros l' _. apply bind_terminates; [apply slice_returns_or_panics | done].
Qed.

End LoopTermination.

(** No call of [NextToken] runs forever: from every state whose
    [readPosition] is an [int], it returns or panics. *)
Lemma NextToken_terminates l :
  min_int <= readPosition l <= max_int -> NextToken l <> OutOfFuel.
Proof.
  intros Hrange. rewrite NextToken_eq. apply bind_terminates.
  { apply while_ch_terminates; [done..|apply unread_bound]. }
  intros l1 H1. apply while_ch_range in H1 as [Hin Hr1]; [|done].
  assert (forall t, advance t l1 <> OutOfFuel) as Hadv.
  { intros t. apply bind_terminates; [apply readChar_returns_or_panics | done]. }
  unfold dispatch.
  destruct (symbol_type (ch l1)); [apply Hadv|].
  destruct (isLetter (ch l1)).
  { apply bind_terminates; [by apply read_run_terminates | by intros []]. }
  destruct (isDigit (ch l1)).
  { apply bind_terminates; [by apply read_run_terminates | by intros []]. }
  destruct (Ascii.eqb (ch l1) Ascii.zero); apply Hadv.
Qed.

(** ** Whitespace between lexemes *)

Lemma take_while_app p a s :
  take_while p (a +:+ s) = if all p a then a +:+ take_while p s else take_while p a.
Proof.
  induction a as [|c r IH]; simpl; [done|].
  destruct (p c); simpl; [|done]. rewrite IH. by destruct (all p r).
Qed.

Lemma drop_while_app p a s :
  drop_while p (a +:+ s) = if all p a then drop_while p s else drop_while p a +:+ s.
Proof.
  induction a as [|c r IH]; simpl; [done|].
  destruct (p c); simpl; [|done]. rewrite IH. by destruct (all p r).
Qed.

Lemma drop_while_nonempty p a : all p a = false -> drop_while p a <> "".
Proof.
  induction a as [|c r IH]; simpl; [done|].
  destruct (p c); simpl; [done | by intros _].
Qed.

Lemma last_cons c r : r <> "" -> last (String c r) = last r.
Proof. by destruct r. Qed.

Lemma last_drop_while p s : drop_while p s <> "" -> last (drop_while p s) = last s.
Proof.
  induction s as [|c r IH]; [done|]. cbn [drop_while].
  destruct (p c); [|done]. intros Hne. rewrite (IH Hne).
  symmetry. apply last_cons. by destruct r.
Qed.

Lemma last_all p s a : all p s = true -> last s = Some a -> p a = true.
Proof.
  induction s as [|c r IH]; [done|].
  intros [Hc Hr]%andb_prop. destruct r as [|c' r'].
  - by intros [= <-].
  - rewrite last_cons by done. by apply IH.
Qed.

Lemma boundary_suffix x x' y :
  boundary x y = true -> x' = "" \/ last x' = last x -> boundary x' y = true.
Proof. intros H [->|E]; [done|]. unfold boundary in *. by rewrite E. Qed.

Section Runs.

(** The condition of a run, letters or digits: two bytes that satisfy it do
    not meet at a boundary. *)
Variable p : ascii -> bool.
Hypothesis p_meet :
  forall a b, p a = true -> p b = true ->
              negb (isLetter a && isLetter b) && negb (isDigit a && isDigit b) = false.

(** A run that reaches the boundary stops there, with or without the
    inserted whitespace. *)
Lemma run_at_boundary x y :
  x <> "" -> all p x = true -> boundary x y = true ->
  take_while p y = "" /\ drop_while p y = y.
Proof.
  intros Hne Hall Hb. destruct y as [|b y]; [done|]. simpl.
  destruct (p b) eqn:Hpb; [|done]. exfalso.
  unfold boundary in Hb. destruct (last x) as [a|] eqn:Hl.
  - rewrite (p_meet a b) in Hb; [done| |done]. by eapply last_all.
  - clear -Hne Hl. induction x as [|c r IH]; [done|].
    destruct r; [done|]. rewrite last_cons in Hl by done. by apply IH.
Qed.

Lemma run_across x y w :
  p w = false -> x <> "" -> p (head x) = true -> boundary x y = true ->
  exists x',
    take_while p (x +:+ String w y) = take_while p (x +:+ y)
    /\ drop_while p (x +:+ String w y) = x' +:+ String w y
    /\ drop_while p (x +:+ y) = x' +:+ y
    /\ (x' = "" \/ last x' = last x).
Proof.
  intros Hw Hne Hh Hb. rewrite !take_while_app, !drop_while_app.
  destruct (all p x) eqn:Hall.
  - destruct (run_at_boundary x y Hne Hall Hb) as [Ht Hd].
    exists "". simpl. rewrite Hw, Ht, Hd. auto.
  - exists (drop_while p x). split_and!; try done.
    right. apply last_drop_while. by apply drop_while_nonempty.
Qed.

End Runs.

Lemma letters_meet a b :
  isLetter a = true -> isLetter b = true ->
  negb (isLetter a && isLetter b) && negb (isDigit a && isDigit b) = false.
Proof. by intros -> ->. Qed.

Lemma digits_meet a b :
  isDigit a = true -> isDigit b = true ->
  negb (isLetter a && isLetter b) && negb (isDigit a && isDigit b) = false.
Proof. intros -> ->. simpl. apply andb_false_r. Qed.

(** One call on the two inputs: either it sees no difference at all, or it
    returns the same token and leaves the same two inputs, shorter. *)
Lemma next_ws_insert x y w :
  isWhitespace w = true -> boundary x y = true ->
  next (x +:+ String w y) = next (x +:+ y)
  \/ exists tok x',
       next (x +:+ String w y) = (tok, x' +:+ String w y)
       /\ next (x +:+ y) = (tok, x' +:+ y)
       /\ boundary x' y = true.
Proof.
  intros Hw Hb.
  rewrite <- (next_drop_while (x +:+ String w y)), <- (next_drop_while (x +:+ y)).
  rewrite !drop_while_app.
  destruct (all isWhitespace x) eqn:Hall.
  { left. simpl. by rewrite Hw. }
  right.
  pose proof (drop_while_nonempty _ _ Hall) as Hne.
  pose proof (last_drop_while _ _ Hne) as Hlast.
  pose proof (head_drop_while isWhitespace x isWhitespace_zero) as Hhead.
  assert (boundary (drop_while isWhitespace x) y = true) as Hb1
    by (eapply boundary_suffix; eauto).
  destruct (drop_while isWhitespace x) as [|c x2] eqn:Ex; [done|].
  clear Hne Hall Hlast Hb. cbn [head] in Hhead.
  assert (forall s, next (String c x2 +:+ s) =
            match symbol_type c with
            | Some ty => (newToken ty c, x2 +:+ s)
            | None =>
                if isLetter c then
                  (mkToken (LookupIdent (take_while isLetter (String c x2 +:+ s)))
                     (take_while isLetter (String c x2 +:+ s)),
                   drop_while isLetter (String c x2 +:+ s))
                else if isDigit c then
                  (mkToken INT (take_while isDigit (String c x2 +:+ s)),
                   drop_while isDigit (String c x2 +:+ s))
                else if Ascii.eqb c Ascii.zero then (mkToken EOF "", x2 +:+ s)
                else (newToken ILLEGAL c, x2 +:+ s)
            end) as Hnext.
  { intros s. change (String c x2 +:+ s) with (String c (x2 +:+ s)).
    unfold next. cbn [drop_while]. by rewrite Hhead. }
  rewrite !Hnext. clear Hnext.
  assert (boundary x2 y = true) as Hb2.
  { eapply boundary_suffix; [exact Hb1|]. destruct x2; [by left | by right]. }
  destruct (symbol_type c); [by eexists _, x2|].
  destruct (isLetter c) eqn:HL.
  { destruct (run_across isLetter letters_meet (String c x2) y w) as (x' & -> & -> & -> & Hx');
      try done.
    - by destruct (isWhitespace_facts w Hw).
    - eexists _, x'. split_and!; try done. exact (boundary_suffix _ _ _ Hb1 Hx'). }
  destruct (isDigit c) eqn:HD.
  { destruct (run_across isDigit digits_meet (String c x2) y w) as (x' & -> & -> & -> & Hx');
      try done.
    - by destruct (isWhitespace_facts w Hw).
    - eexists _, x'. split_and!; try done. exact (boundary_suffix _ _ _ Hb1 Hx'). }
  destruct (Ascii.eqb c Ascii.zero); by eexists _, x2.
Qed.

Lemma nexts_ws_insert n :
  forall x y w,
    isWhitespace w = true -> boundary x y = true ->
    nexts n (x +:+ String w y) = nexts n (x +:+ y).
Proof.
  induction n as [|n IH]; intros x y w Hw Hb; simpl; [done|].
  destruct (next_ws_insert x y w Hw Hb) as [->|(tok & x' & -> & -> & Hb')]; [done|].
  simpl. f_equal. by apply IH.
Qed.

Lemma nexts_ws_equiv a b : ws_equiv a b -> forall n, nexts n a = nexts n b.
Proof.
  induction 1 as [a|a b [x y w Hw Hb]|a b [x y w Hw Hb]|a b c _ IH1 _ IH2]; intros n.
  - done.
  - symmetry. by apply nexts_ws_insert.
  - by apply nexts_ws_insert.
  - by rewrite IH1.
Qed.

Lemma all_impl (p q : ascii -> bool) s :
  (forall c, p c = true -> q c = true) -> all p s = true -> all q s = true.
Proof.
  intros Hpq. induction s as [|c r IH]; simpl; [done|].
  intros [Hc Hr]%andb_prop. by rewrite (Hpq c Hc), IH.
Qed.

Lemma lexeme_token_no_whitespace tok :
  lexeme_token tok -> no_whitespace (Literal tok) = true.
Proof.
  intros [c ty Hsym|w Hne Hall|w Hne Hall| |c Hc]; cbn [Literal]; unfold no_whitespace.
  - apply symbol_type_Some in Hsym as (_ & _ & Hws & _). simpl. by rewrite Hws.
  - apply (all_impl isLetter); [|done]. intros c Hc.
    by destruct (isLetter_facts c Hc) as (_ & -> & _).
  - apply (all_impl isDigit); [|done]. intros c Hc.
    by destruct (isDigit_facts c Hc) as (_ & -> & _).
  - done.
  - apply string_of_byte_no_whitespace. unfold classify in Hc.
    by destruct (isWhitespace c).
Qed.

Lemma nexts_no_whitespace n :
  forall s, Forall (fun t => no_whitespace (Literal t) = true) (nexts n s).
Proof.
  induction n as [|n IH]; intros s; simpl; constructor; [|apply IH].
  apply lexeme_token_no_whitespace, next_shape.
Qed.

(** An ILLEGAL token is built from the first byte after the whitespace. *)
Lemma next_ILLEGAL s :
  Type_ (fst (next s)) = ILLEGAL ->
  classify (head (drop_while isWhitespace s)) = Illegal
  /\ Literal (fst (next s)) = string_of_byte (head (drop_while isWhitespace s)).
Proof.
  unfold next, newToken.
  pose proof (head_drop_while isWhitespace s isWhitespace_zero) as Hws.
  set (s1 := drop_while isWhitespace s) in *.
  destruct (symbol_type (head s1)) as [ty|] eqn:Hsym; cbn [fst Type_ Literal].
  { intros ->. by apply all_fixed_symbols, fixed_symbols_length in Hsym. }
  destruct (isLetter (head s1)) eqn:HL; cbn [fst Type_ Literal].
  { intros E. by apply LookupIdent_tags in E. }
  destruct (isDigit (head s1)) eqn:HD; cbn [fst Type_ Literal]; [done|].
  destruct (Ascii.eqb (head s1) Ascii.zero) eqn:HZ; cbn [fst Type_ Literal]; [done|].
  intros _. split; [by apply classify_Illegal | done].
Qed.

(** * The claims of the specification *)

(** C1, as amended.  For every input without the byte 0, scanning returns
    for every number of calls within the [int] range, and once a call has
    returned an EOF token every later call returns the EOF token with the
    empty literal. *)
Theorem EOF_is_idempotent inp n :
  no_nul inp = true -> len inp + Z.of_nat n <= max_int ->
  exists toks,
    scan n inp = Ok toks /\ List.length toks = n /\ EOF_repeats toks.
Proof.
  intros Hnn Hroom. exists (nexts n inp).
  split; [by apply scan_spec|]. split; [apply length_nexts|].
  by apply nexts_EOF_repeats.
Qed.

Lemma EOF_is_idempotent_witness :
  exists toks,
    scan 4 "x;" = Ok toks /\ List.length toks = 4%nat /\ EOF_repeats toks.
Proof. apply (EOF_is_idempotent "x;" 4); [reflexivity | by vm_compute]. Defined.

(** C1 as stated fails on an input that holds the byte 0: on the two bytes
    0, "a" the first call returns EOF and the second returns IDENT "a". *)
Lemma EOF_is_idempotent_counterexample :
  scan 2 (String Ascii.zero "a") = Ok [mkToken EOF ""; mkToken IDENT "a"]
  /\ ~ EOF_repeats [mkToken EOF ""; mkToken IDENT "a"].
Proof.
  split; [vm_compute; reflexivity|].
  intros H. by specialize (H 0%nat 1%nat (mkToken EOF "") (mkToken IDENT "a")
                            ltac:(lia) eq_refl eq_refl eq_refl).
Qed.

(** C2, as amended.  When the current character is a non-zero byte that is
    not one of the fourteen symbols, not a letter or underscore, not a digit
    and not whitespace, [NextToken] returns an ILLEGAL token whose literal
    is [string(b)] of that byte, the byte itself when it is ASCII, and
    advances one character.  Every byte value falls in exactly one of the
    six classes whitespace, fixed symbol, letter, digit, sentinel (the byte
    0) and illegal, and scanning any input returns for every number of calls
    within the [int] range. *)
Theorem illegal_byte_token :
  (forall l,
     ch l <> Ascii.zero -> isWhitespace (ch l) = false ->
     is_symbol (ch l) = false -> isLetter (ch l) = false ->
     isDigit (ch l) = false -> 0 <= readPosition l ->
     NextToken l = Ok (mkToken ILLEGAL (string_of_byte (ch l)), advanced l)
     /\ position (advanced l) = readPosition l
     /\ (is_ascii (ch l) = true -> string_of_byte (ch l) = String (ch l) ""))
  /\ (forall c, count_true (class_flags c) = 1%nat)
  /\ (forall inp n,
        len inp + Z.of_nat n <= max_int ->
        exists toks, scan n inp = Ok toks /\ List.length toks = n).
Proof.
  split; [|split].
  - intros l Hz Hws Hsym HL HD Hr. split; [|split; [done|]].
    + rewrite NextToken_no_whitespace by done.
      unfold dispatch, advance, is_symbol in *.
      destruct (symbol_type (ch l)); [done|]. rewrite HL, HD.
      destruct (Ascii.eqb_spec (ch l) Ascii.zero); [done|].
      by rewrite readChar_any.
    + apply string_of_byte_ascii.
  - apply class_flags_one.
  - intros inp n Hroom. exists (nexts n inp). split; [by apply scan_spec|].
    clear Hroom. revert inp. induction n as [|n IH]; intros inp; simpl; [done|].
    by rewrite IH.
Qed.

Lemma illegal_byte_token_witness :
  NextToken {| input := "@"; position := 0; readPosition := 1; ch := "@" |}
  = Ok (mkToken ILLEGAL "@",
        {| input := "@"; position := 1; readPosition := 2; ch := Ascii.zero |}).
Proof.
  apply (proj1 illegal_byte_token
           {| input := "@"; position := 0; readPosition := 1; ch := "@" |});
    try reflexivity; simpl; [discriminate | lia].
Defined.

(** C2 as stated fails on the byte 0, which is none of the symbols, letters,
    digits or whitespace and yet yields EOF with the empty literal, and on a
    byte from 0x80 up, whose ILLEGAL token does not carry the single byte. *)
Lemma illegal_byte_counterexample :
  (is_symbol Ascii.zero = false /\ isLetter Ascii.zero = false
   /\ isDigit Ascii.zero = false /\ isWhitespace Ascii.zero = false
   /\ scan 1 (String Ascii.zero "") = Ok [mkToken EOF ""])
  /\ (is_symbol "255" = false /\ isLetter "255" = false
      /\ isDigit "255" = false /\ isWhitespace "255" = false
      /\ scan 1 (String "255" "") = Ok [mkToken ILLEGAL (String "195" (String "191" ""))]).
Proof. split; split_and!; vm_compute; reflexivity. Qed.

(** C3, as amended.  Whenever the current character is the sentinel 0 (and
    [readPosition] is not negative), [NextToken] returns the EOF token with
    the empty literal and leaves [input] unchanged, but it does run its
    closing [readChar]: [position] becomes the old [readPosition],
    [readPosition] is incremented, and [ch] is read again; [ch] is the
    sentinel again whenever the new position is at or past the end of the
    input. *)
Theorem NextToken_at_sentinel l :
  ch l = Ascii.zero -> 0 <= readPosition l ->
  NextToken l = Ok (mkToken EOF "", advanced l)
  /\ input (advanced l) = input l
  /\ position (advanced l) = readPosition l
  /\ readPosition (advanced l) = int_wrap (readPosition l + 1)
  /\ (len (input l) <= readPosition l -> ch (advanced l) = Ascii.zero).
Proof.
  intros Hz Hr. split.
  - rewrite NextToken_no_whitespace by (by rewrite Hz).
    unfold dispatch, advance. rewrite Hz. simpl. by rewrite readChar_any.
  - split_and!; try done. intros Hle. simpl.
    rewrite drop_all; [done|]. unfold len in Hle. lia.
Qed.

Lemma NextToken_at_sentinel_witness :
  NextToken {| input := "x"; position := 1; readPosition := 2; ch := Ascii.zero |}
  = Ok (mkToken EOF "",
        {| input := "x"; position := 2; readPosition := 3; ch := Ascii.zero |}).
Proof.
  apply (NextToken_at_sentinel
           {| input := "x"; position := 1; readPosition := 2; ch := Ascii.zero |}).
  - reflexivity.
  - simpl. lia.
Defined.

(** C3 as stated fails: on the empty input the first call returns EOF and
    moves [position] from 0 to 1 and [readPosition] from 1 to 2. *)
Lemma NextToken_at_sentinel_counterexample :
  New "" = Ok {| input := ""; position := 0; readPosition := 1; ch := Ascii.zero |}
  /\ NextToken {| input := ""; position := 0; readPosition := 1; ch := Ascii.zero |}
     = Ok (mkToken EOF "",
           {| input := ""; position := 1; readPosition := 2; ch := Ascii.zero |})
  /\ ~ (forall l tok l',
          ch l = Ascii.zero -> NextToken l = Ok (tok, l') ->
          position l' = position l /\ readPosition l' = readPosition l).
Proof.
  split; [reflexivity|]. split; [vm_compute; reflexivity|].
  intros H.
  destruct (H {| input := ""; position := 0; readPosition := 1; ch := Ascii.zero |}
              (mkToken EOF "")
              {| input := ""; position := 1; readPosition := 2; ch := Ascii.zero |})
    as [Hp _]; [reflexivity | vm_compute; reflexivity | discriminate Hp].
Qed.

(** C4, as amended.  No call of [NextToken] runs forever.  Scanning an input
    returns; the first calls, as many as the input has lexemes, consume one
    lexeme each, and the next call and every call after it return EOF.  When
    the input does not hold the byte 0 none of the tokens of the lexemes is
    EOF, so the first EOF comes with call number lexemes plus one. *)
Theorem scanning_terminates :
  (forall l, min_int <= readPosition l <= max_int -> NextToken l <> OutOfFuel)
  /\ (forall inp n,
        len inp + Z.of_nat (count_lexemes inp + 1 + n) <= max_int ->
        exists toks,
          scan (count_lexemes inp + 1 + n) inp
          = Ok (toks ++ repeat (mkToken EOF "") (1 + n))%list
          /\ List.length toks = count_lexemes inp
          /\ (no_nul inp = true -> Forall (fun t => Type_ t <> EOF) toks)).
Proof.
  split; [apply NextToken_terminates|].
  intros inp n Hroom.
  destruct (nexts_count_lexemes (count_lexemes inp) inp eq_refl)
    as (toks & Hlen & Hn & Hall).
  exists toks. rewrite scan_spec by done.
  rewrite <- Nat.add_assoc, Hn. auto.
Qed.

Lemma scanning_terminates_witness :
  exists toks,
    scan (count_lexemes "let x1 = 5;" + 1 + 0) "let x1 = 5;"
    = Ok (toks ++ repeat (mkToken EOF "") (1 + 0))%list
    /\ List.length toks = count_lexemes "let x1 = 5;"
    /\ (no_nul "let x1 = 5;" = true -> Forall (fun t => Type_ t <> EOF) toks).
Proof.
  apply (proj2 scanning_terminates "let x1 = 5;" 0%nat). by vm_compute.
Defined.

(** C4 as stated fails on an input that holds the byte 0: the two bytes 0,
    "a" hold two lexemes, yet the first call already returns EOF and the
    second returns IDENT "a". *)
Lemma scanning_terminates_counterexample :
  count_lexemes (String Ascii.zero "a") = 2%nat
  /\ scan 3 (String Ascii.zero "a")
     = Ok [mkToken EOF ""; mkToken IDENT "a"; mkToken EOF ""]
  /\ ~ (exists toks,
          scan (count_lexemes (String Ascii.zero "a") + 1) (String Ascii.zero "a")
          = Ok (toks ++ [mkToken EOF ""])%list
          /\ Forall (fun t => Type_ t <> EOF) toks).
Proof.
  split; [reflexivity|]. split; [vm_compute; reflexivity|].
  intros (toks & H & Hall). vm_compute in H.
  destruct toks as [|t toks]; [done|]. injection H as <- _.
  by inversion Hall.
Qed.

(** C5, as amended.  Two inputs that differ only by whitespace bytes inserted
    or removed between lexemes, at points where the bytes on the two sides
    are not two letters (or underscores) and not two digits, yield the same
    tokens, call after call, and no token's literal holds a whitespace
    byte. *)
Theorem whitespace_is_invisible a b n :
  ws_equiv a b ->
  len a + Z.of_nat n <= max_int -> len b + Z.of_nat n <= max_int ->
  exists toks,
    scan n a = Ok toks /\ scan n b = Ok toks
    /\ Forall (fun t => no_whitespace (Literal t) = true) toks.
Proof.
  intros Heq Ha Hb. exists (nexts n a).
  rewrite !scan_spec by done. rewrite (nexts_ws_equiv a b Heq n).
  split_and!; try done. apply nexts_no_whitespace.
Qed.

Lemma whitespace_is_invisible_witness :
  exists toks,
    scan 6 "x+ y1" = Ok toks /\ scan 6 "x + y  1" = Ok toks
    /\ Forall (fun t => no_whitespace (Literal t) = true) toks.
Proof.
  apply (whitespace_is_invisible "x+ y1" "x + y  1" 6);
    [|by vm_compute|by vm_compute].
  eapply ws_equiv_trans;
    [apply ws_equiv_insert, (ws_insert_at "x" "+ y1" " "); reflexivity|].
  eapply ws_equiv_trans;
    [apply ws_equiv_insert, (ws_insert_at "x + y" "1" " "); reflexivity|].
  apply ws_equiv_insert, (ws_insert_at "x + y " "1" " "); reflexivity.
Defined.

(** C5 as stated fails where the whitespace removed is all that separates
    two words or two numbers: "let x" holds the lexemes "let" and "x" with
    one space between them, and without the space [readIdentifier] reads
    the four letters as one identifier; likewise "1 2" and "12" with
    [readNumber]. *)
Lemma whitespace_is_invisible_counterexample :
  isWhitespace " " = true
  /\ count_lexemes ("let" +:+ String " " "x") = 2%nat
  /\ boundary "let" "x" = false /\ boundary "1" "2" = false
  /\ len ("let" +:+ String " " "x") + Z.of_nat 3 <= max_int
  /\ len ("let" +:+ "x") + Z.of_nat 3 <= max_int
  /\ scan 3 ("let" +:+ String " " "x")
     = Ok [mkToken LET "let"; mkToken IDENT "x"; mkToken EOF ""]
  /\ scan 3 ("let" +:+ "x")
     = Ok [mkToken IDENT "letx"; mkToken EOF ""; mkToken EOF ""]
  /\ scan 3 ("1" +:+ String " " "2")
     = Ok [mkToken INT "1"; mkToken INT "2"; mkToken EOF ""]
  /\ scan 3 ("1" +:+ "2")
     = Ok [mkToken INT "12"; mkToken EOF ""; mkToken EOF ""]
  /\ ~ (exists toks,
          scan 3 ("let" +:+ String " " "x") = Ok toks
          /\ scan 3 ("let" +:+ "x") = Ok toks).
Proof.
  split_and!; try (vm_compute; reflexivity); try (by vm_compute).
  intros (toks & H1 & H2). vm_compute in H1, H2. congruence.
Qed.

(** C6, as amended.  For every non-empty input made only of ASCII letters
    and underscores, the first call returns one token whose literal is the
    whole input, typed by the keyword lookup of the whole input (so never
    EOF), and every later call returns EOF. *)
Theorem maximal_munch inp n :
  inp <> "" -> all isLetter inp = true ->
  len inp + Z.of_nat (2 + n) <= max_int ->
  scan (2 + n) inp
  = Ok (mkToken (LookupIdent inp) inp :: repeat (mkToken EOF "") (1 + n))
  /\ LookupIdent inp <> EOF.
Proof.
  intros Hne Hall Hroom. split; [|apply LookupIdent_tags].
  rewrite scan_spec by done. cbn [nexts Nat.add].
  rewrite (next_all_letters inp Hne Hall). cbn [fst snd].
  by rewrite next_empty, nexts_empty.
Qed.

Lemma maximal_munch_witness :
  scan 2 "foo_bar" = Ok [mkToken IDENT "foo_bar"; mkToken EOF ""]
  /\ LookupIdent "foo_bar" <> EOF.
Proof.
  apply (maximal_munch "foo_bar" 0); [discriminate | reflexivity | by vm_compute].
Defined.

(** C6 as stated fails on the empty input, which holds nothing but letters
    and underscores and yields no token before EOF. *)
Lemma maximal_munch_counterexample :
  all isLetter "" = true
  /\ scan 2 "" = Ok [mkToken EOF ""; mkToken EOF ""]
  /\ ~ (exists tok, scan 2 "" = Ok [tok; mkToken EOF ""] /\ Type_ tok <> EOF).
Proof.
  split; [reflexivity|]. split; [vm_compute; reflexivity|].
  intros (tok & H & Hne). vm_compute in H. injection H as <-. done.
Qed.

(** C7.  Scanning "let" yields LET "let" then EOF, scanning "lett" yields
    IDENT "lett" then EOF; in general a letter run is consumed whole and its
    type is the keyword table's entry for the whole run when there is one,
    and IDENT when there is none. *)
Theorem keyword_precedence :
  scan 2 "let" = Ok [mkToken LET "let"; mkToken EOF ""]
  /\ scan 2 "lett" = Ok [mkToken IDENT "lett"; mkToken EOF ""]
  /\ (forall inp l,
        reachable inp l -> position l < max_int -> len inp < max_int ->
        isLetter (head (drop_while isWhitespace (rest l))) = true ->
        exists tok l',
          NextToken l = Ok (tok, l')
          /\ Literal tok = take_while isLetter (drop_while isWhitespace (rest l))
          /\ (forall kw, keywords !! Literal tok = Some kw -> Type_ tok = kw)
          /\ (keywords !! Literal tok = None -> Type_ tok = IDENT)
          /\ (is_Some (keywords !! Literal tok) <-> Type_ tok <> IDENT)).
Proof.
  split; [vm_compute; reflexivity|]. split; [vm_compute; reflexivity|].
  intros inp l Hr Hlt Hlen HL.
  destruct (NextToken_reachable inp l Hr Hlt Hlen) as (l' & H & _).
  exists (fst (next (rest l))), l'. split; [done|].
  unfold next.
  destruct (symbol_type _) as [ty|] eqn:Hsym.
  { apply symbol_type_Some in Hsym as (Hsym & _). congruence. }
  rewrite HL. cbn [fst Literal Type_].
  set (w := take_while isLetter _).
  split; [done|]. unfold LookupIdent.
  destruct (keywords !! w) as [kw|] eqn:Hkw.
  - split; [by intros ? [= <-]|]. split; [done|].
    split; [|done]. intros _.
    assert (exists s, keywords !! s = Some kw) as Hex by eauto.
    apply keywords_values in Hex.
    by destruct Hex as [-> | ->].
  - split; [done|]. split; [done|]. split; [by intros [? ?] | done].
Qed.

Lemma keyword_precedence_witness :
  exists tok l',
    NextToken {| input := "let x"; position := 0; readPosition := 1; ch := "l" |}
    = Ok (tok, l')
    /\ Literal tok = "let"
    /\ (forall kw, keywords !! Literal tok = Some kw -> Type_ tok = kw)
    /\ (keywords !! Literal tok = None -> Type_ tok = IDENT)
    /\ (is_Some (keywords !! Literal tok) <-> Type_ tok <> IDENT).
Proof.
  apply (proj2 (proj2 keyword_precedence) "let x").
  - apply reachable_New. reflexivity.
  - reflexivity.
  - reflexivity.
  - reflexivity.
Defined.

(** C8.  In every state reachable from [New] by calls of [NextToken],
    [readPosition == position + 1] holds in Go's [int] arithmetic, and as an
    equation of integers as long as [position] is below the largest [int];
    every [readChar] that returns, from whatever state, establishes it. *)
Theorem readPosition_is_position_plus_one :
  (forall inp l,
     reachable inp l ->
     readPosition l = int_wrap (position l + 1)
     /\ (position l < max_int -> readPosition l = position l + 1))
  /\ (forall l l',
        readChar l = Ok l' ->
        position l' = readPosition l
        /\ readPosition l' = int_wrap (position l' + 1)).
Proof.
  split.
  - intros inp l Hr. destruct (reachable_wf _ _ Hr) as [[Hp Hrp _] _].
    split; [done|]. intros Hlt. rewrite Hrp.
    apply int_wrap_small. unfold min_int, max_int in *. lia.
  - intros l l' H. by apply readChar_position in H as (_ & ? & ?).
Qed.

Lemma readPosition_is_position_plus_one_witness :
  readPosition {| input := "a b"; position := 1; readPosition := 2; ch := " " |}
  = int_wrap (1 + 1)
  /\ (1 < max_int ->
      readPosition {| input := "a b"; position := 1; readPosition := 2; ch := " " |}
      = 1 + 1).
Proof.
  apply (proj1 readPosition_is_position_plus_one "a b").
  eapply reachable_NextToken; [apply reachable_New; reflexivity|].
  vm_compute. reflexivity.
Defined.

(** C9.  [LookupIdent] maps "fn" to FUNCTION and "let" to LET and every
    other string to IDENT, and FUNCTION and LET are the only values of the
    keyword table; accordingly a token returned by [NextToken] has type
    FUNCTION only with the literal "fn" and type LET only with the literal
    "let", and every token type is one of the twenty of the vocabulary. *)
Theorem LookupIdent_two_keywords :
  LookupIdent "fn" = FUNCTION /\ LookupIdent "let" = LET
  /\ (forall s, s <> "fn" -> s <> "let" -> LookupIdent s = IDENT)
  /\ (forall ty, (exists s, keywords !! s = Some ty) <-> ty = FUNCTION \/ ty = LET)
  /\ (forall inp l,
        reachable inp l -> position l < max_int -> len inp < max_int ->
        exists tok l',
          NextToken l = Ok (tok, l')
          /\ (Type_ tok = FUNCTION -> Literal tok = "fn")
          /\ (Type_ tok = LET -> Literal tok = "let")
          /\ In (Type_ tok)
                (fixed_symbols ++ [ILLEGAL; EOF; IDENT; INT; FUNCTION; LET])).
Proof.
  split; [done|]. split; [done|]. split; [|split].
  - intros s Hfn Hlet. rewrite LookupIdent_cases.
    destruct (String.eqb_spec s "fn"); [done|].
    by destruct (String.eqb_spec s "let").
  - apply keywords_values.
  - intros inp l Hr Hlt Hlen.
    destruct (NextToken_reachable inp l Hr Hlt Hlen) as (l' & H & _).
    exists (fst (next (rest l))), l'. split; [done|].
    apply lexeme_token_keyword, next_shape.
Qed.

Lemma LookupIdent_two_keywords_witness :
  exists tok l',
    NextToken {| input := "fn"; position := 0; readPosition := 1; ch := "f" |}
    = Ok (tok, l')
    /\ (Type_ tok = FUNCTION -> Literal tok = "fn")
    /\ (Type_ tok = LET -> Literal tok = "let")
    /\ In (Type_ tok) (fixed_symbols ++ [ILLEGAL; EOF; IDENT; INT; FUNCTION; LET]).
Proof.
  apply (proj2 (proj2 (proj2 (proj2 LookupIdent_two_keywords))) "fn").
  - apply reachable_New. reflexivity.
  - reflexivity.
  - reflexivity.
Defined.

(** C10, as amended.  From every state a caller can reach (below the [int]
    limit) [NextToken] returns a token whose literal is empty exactly when
    its type is EOF; an IDENT, keyword or INT token has a non-empty literal;
    a fixed-symbol token has a literal of exactly one byte; an ILLEGAL token
    carries [string(b)] for the offending byte [b], the first byte after the
    whitespace, which is one byte when [b] is ASCII and the two-byte UTF-8
    encoding of code point [b] otherwise. *)
Theorem Literal_empty_iff_EOF inp l :
  reachable inp l -> position l < max_int -> len inp < max_int ->
  exists tok l',
    NextToken l = Ok (tok, l')
    /\ (Literal tok = "" <-> Type_ tok = EOF)
    /\ (In (Type_ tok) [IDENT; FUNCTION; LET; INT] -> Literal tok <> "")
    /\ (In (Type_ tok) fixed_symbols -> String.length (Literal tok) = 1%nat)
    /\ (Type_ tok = ILLEGAL ->
        let b := head (drop_while isWhitespace (rest l)) in
        classify b = Illegal /\ Literal tok = string_of_byte b
        /\ String.length (Literal tok) = (if is_ascii b then 1 else 2)%nat).
Proof.
  intros Hr Hlt Hlen.
  destruct (NextToken_reachable inp l Hr Hlt Hlen) as (l' & H & _).
  exists (fst (next (rest l))), l'. split; [done|].
  destruct (lexeme_token_literal _ (next_shape (rest l))) as (H1 & H2 & H3 & _).
  split_and!; try done.
  intros HI. destruct (next_ILLEGAL _ HI) as [Hc HL].
  cbv zeta. rewrite HL. split_and!; try done. apply string_of_byte_length.
Qed.

Lemma Literal_empty_iff_EOF_witness :
  exists tok l',
    NextToken {| input := "5;"; position := 0; readPosition := 1; ch := "5" |}
    = Ok (tok, l')
    /\ (Literal tok = "" <-> Type_ tok = EOF)
    /\ (In (Type_ tok) [IDENT; FUNCTION; LET; INT] -> Literal tok <> "")
    /\ (In (Type_ tok) fixed_symbols -> String.length (Literal tok) = 1%nat)
    /\ (Type_ tok = ILLEGAL ->
        classify "5" = Illegal /\ Literal tok = string_of_byte "5"
        /\ String.length (Literal tok) = 1%nat).
Proof.
  apply (Literal_empty_iff_EOF "5;").
  - apply reachable_New. reflexivity.
  - reflexivity.
  - reflexivity.
Defined.

(** C10 as stated fails on a byte from 0x80 up: for the one-byte input 0xFF
    the ILLEGAL token carries the two bytes 0xC3 0xBF. *)
Lemma Literal_one_byte_counterexample :
  exists tok l',
    NextToken {| input := String "255" ""; position := 0; readPosition := 1;
                 ch := "255" |} = Ok (tok, l')
    /\ reachable (String "255" "")
         {| input := String "255" ""; position := 0; readPosition := 1; ch := "255" |}
    /\ Type_ tok = ILLEGAL
    /\ Literal tok = String "195" (String "191" "")
    /\ String.length (Literal tok) <> 1%nat.
Proof.
  eexists _, _. split; [vm_compute; reflexivity|].
  split; [apply reachable_New; reflexivity|]. done.
Qed.

(** * Further properties of the code *)

(** ** Runs of digits and of letters *)

Lemma app_cons c r s : String c r +:+ s = String c (r +:+ s).
Proof. reflexivity. Qed.

Lemma app_empty_r s : s +:+ "" = s.
Proof. induction s as [|c r IH]; [done|]. by rewrite app_cons, IH. Qed.

Lemma length_append a b :
  String.length (a +:+ b) = (String.length a + String.length b)%nat.
Proof. induction a as [|c r IH]; [done|]. rewrite app_cons. simpl. by rewrite IH. Qed.

Lemma take_drop_while p s : take_while p s +:+ drop_while p s = s.
Proof.
  induction s as [|c r IH]; simpl; [done|].
  destruct (p c); [|done]. by rewrite app_cons, IH.
Qed.

Lemma next_all_digits s :
  s <> "" -> all isDigit s = true -> next s = (mkToken INT s, "").
Proof.
  intros Hne Hall. destruct s as [|c r]; [done|].
  pose proof Hall as Hall'. simpl in Hall'. apply andb_prop in Hall' as [HD _].
  destruct (isDigit_facts c HD) as (HL & Hws & _).
  assert (symbol_type c = None) as Hsym.
  { destruct (symbol_type c) as [ty|] eqn:E; [|done].
    apply symbol_type_Some in E as (_ & E & _). congruence. }
  unfold next. cbn [drop_while]. rewrite Hws. cbn [head].
  rewrite Hsym, HL, HD. by rewrite take_while_all, drop_while_all.
Qed.

(** A run of one kind stops where a run of the other kind starts. *)
Lemma run_stops (p q : ascii -> bool) x y :
  (forall c, q c = true -> p c = false) ->
  all p x = true -> y <> "" -> all q y = true ->
  take_while p (x +:+ y) = x /\ drop_while p (x +:+ y) = y.
Proof.
  intros Hqp Hx Hy Hally. rewrite take_while_app, drop_while_app, Hx.
  destruct y as [|c r]; [done|]. simpl in *.
  apply andb_prop in Hally as [Hc _]. rewrite (Hqp c Hc).
  by rewrite app_empty_r.
Qed.

Lemma next_letters_digits w d :
  w <> "" -> all isLetter w = true -> d <> "" -> all isDigit d = true ->
  next (w +:+ d) = (mkToken (LookupIdent w) w, d).
Proof.
  intros Hw Hallw Hd Halld.
  destruct (run_stops isLetter isDigit w d) as [Ht Hdr]; try done.
  { intros c Hc. by destruct (isDigit_facts c Hc). }
  destruct w as [|c r]; [done|].
  pose proof Hallw as H. simpl in H. apply andb_prop in H as [HL _].
  destruct (isLetter_facts c HL) as (_ & Hws & _).
  unfold next. change (String c r +:+ d) with (String c (r +:+ d)) in *.
  cbn [drop_while]. rewrite Hws. cbn [head].
  rewrite (isLetter_not_symbol c HL), HL. by rewrite Ht, Hdr.
Qed.

Lemma next_digits_letters d w :
  d <> "" -> all isDigit d = true -> w <> "" -> all isLetter w = true ->
  next (d +:+ w) = (mkToken INT d, w).
Proof.
  intros Hd Halld Hw Hallw.
  destruct (run_stops isDigit isLetter d w) as [Ht Hdr]; try done.
  { intros c Hc. by destruct (isLetter_facts c Hc). }
  destruct d as [|c r]; [done|].
  pose proof Halld as H. simpl in H. apply andb_prop in H as [HD _].
  destruct (isDigit_facts c HD) as (HL & Hws & _).
  assert (symbol_type c = None) as Hsym.
  { destruct (symbol_type c) as [ty|] eqn:E; [|done].
    apply symbol_type_Some in E as (_ & E & _). congruence. }
  unfold next. change (String c r +:+ w) with (String c (r +:+ w)) in *.
  cbn [drop_while]. rewrite Hws. cbn [head].
  rewrite Hsym, HL, HD. by rewrite Ht, Hdr.
Qed.

(** X1.  A non-empty input made only of digits is one INT token whose
    literal is the whole input; every later call returns EOF. *)
Theorem number_is_one_token inp n :
  inp <> "" -> all isDigit inp = true ->
  len inp + Z.of_nat (2 + n) <= max_int ->
  scan (2 + n) inp = Ok (mkToken INT inp :: repeat (mkToken EOF "") (1 + n)).
Proof.
  intros Hne Hall Hroom. rewrite scan_spec by done. cbn [nexts Nat.add].
  rewrite (next_all_digits inp Hne Hall). cbn [fst snd].
  by rewrite next_empty, nexts_empty.
Qed.

Lemma number_is_one_token_witness :
  scan 2 "0042" = Ok [mkToken INT "0042"; mkToken EOF ""].
Proof.
  apply (number_is_one_token "0042" 0); [discriminate | reflexivity | by vm_compute].
Defined.

(** X2.  Digits are no part of an identifier and letters no part of a
    number: a run of letters directly followed by a run of digits is two
    tokens, the word and then the number, and a run of digits directly
    followed by a run of letters is the number and then the word. *)
Theorem letters_and_digits_split w d n :
  w <> "" -> all isLetter w = true -> d <> "" -> all isDigit d = true ->
  len (w +:+ d) + Z.of_nat (3 + n) <= max_int ->
  scan (3 + n) (w +:+ d)
  = Ok (mkToken (LookupIdent w) w :: mkToken INT d :: repeat (mkToken EOF "") (1 + n))
  /\ scan (3 + n) (d +:+ w)
     = Ok (mkToken INT d :: mkToken (LookupIdent w) w :: repeat (mkToken EOF "") (1 + n)).
Proof.
  intros Hw Hallw Hd Halld Hroom.
  assert (len (d +:+ w) = len (w +:+ d)) as Hlen.
  { unfold len. rewrite !length_append. lia. }
  rewrite !scan_spec by (rewrite ?Hlen; done). cbn [nexts Nat.add].
  rewrite (next_letters_digits w d), (next_digits_letters d w) by done.
  cbn [fst snd].
  rewrite (next_all_digits d), (next_all_letters w) by done. cbn [fst snd].
  by rewrite next_empty, nexts_empty.
Qed.

Lemma letters_and_digits_split_witness :
  scan 3 "x12" = Ok [mkToken IDENT "x"; mkToken INT "12"; mkToken EOF ""]
  /\ scan 3 "12x" = Ok [mkToken INT "12"; mkToken IDENT "x"; mkToken EOF ""].
Proof.
  apply (letters_and_digits_split "x" "12" 0);
    [discriminate | reflexivity | discriminate | reflexivity | by vm_compute].
Defined.

(** ** Inputs of whitespace only *)

Lemma next_all_whitespace s :
  all isWhitespace s = true -> next s = (mkToken EOF "", "").
Proof.
  intros Hall. by rewrite <- next_drop_while, drop_while_all.
Qed.

(** X3.  An input that holds nothing but whitespace, the empty input
    included, yields EOF on the first call and on every later one. *)
Theorem whitespace_only_is_EOF inp n :
  all isWhitespace inp = true -> len inp + Z.of_nat n <= max_int ->
  scan n inp = Ok (repeat (mkToken EOF "") n).
Proof.
  intros Hall Hroom. rewrite scan_spec by done.
  destruct n as [|n]; [done|]. simpl.
  by rewrite (next_all_whitespace inp Hall), nexts_empty.
Qed.

Lemma whitespace_only_is_EOF_witness :
  scan 2 (String " " (String "009" (String "010" (String "013" ""))))
  = Ok [mkToken EOF ""; mkToken EOF ""].
Proof.
  apply (whitespace_only_is_EOF
           (String " " (String "009" (String "010" (String "013" "")))) 2);
    [reflexivity | by vm_compute].
Defined.

(** ** The literals give the input back *)

Lemma strip_drop_while s :
  strip_whitespace (drop_while isWhitespace s) = strip_whitespace s.
Proof.
  induction s as [|c r IH]; simpl; [done|].
  destruct (isWhitespace c) eqn:E; [done|]. simpl. by rewrite E.
Qed.

Lemma strip_app a b :
  strip_whitespace (a +:+ b) = strip_whitespace a +:+ strip_whitespace b.
Proof.
  induction a as [|c r IH]; [done|]. rewrite app_cons. simpl.
  destruct (isWhitespace c); [done|]. by rewrite app_cons, IH.
Qed.

Lemma strip_no_whitespace s : no_whitespace s = true -> strip_whitespace s = s.
Proof.
  unfold no_whitespace. induction s as [|c r IH]; simpl; [done|].
  intros [Hc Hr]%andb_prop. apply negb_true_iff in Hc. rewrite Hc.
  by rewrite IH.
Qed.

Lemma strip_run p s :
  (forall c, p c = true -> isWhitespace c = false) ->
  take_while p s +:+ strip_whitespace (drop_while p s) = strip_whitespace s.
Proof.
  intros Hp. rewrite <- (take_drop_while p s) at 3. rewrite strip_app.
  f_equal. symmetry. apply strip_no_whitespace.
  apply (all_impl p); [|apply all_take_while].
  intros c Hc. by rewrite (Hp c Hc).
Qed.

Lemma ascii_text_head s :
  ascii_text s = true -> s <> "" ->
  is_ascii (head s) = true /\ head s <> Ascii.zero.
Proof.
  destruct s as [|c r]; [done|]. unfold ascii_text. simpl.
  intros [[Ha Hz]%andb_prop _]%andb_prop _. split; [done|].
  intros ->. done.
Qed.

(** One call on ASCII text: the literal of the token is what the call took
    from the input, whitespace apart. *)
Lemma next_literal s :
  ascii_text s = true ->
  Literal (fst (next s)) +:+ strip_whitespace (snd (next s)) = strip_whitespace s.
Proof.
  intros Htext. rewrite <- (strip_drop_while s). unfold next, newToken.
  pose proof (head_drop_while isWhitespace s isWhitespace_zero) as Hws.
  pose proof (all_drop_while _ isWhitespace s Htext) as Htext1.
  fold (ascii_text (drop_while isWhitespace s)) in Htext1.
  set (s1 := drop_while isWhitespace s) in *.
  assert (s1 <> "" ->
          String (head s1) "" +:+ strip_whitespace (tail s1) = strip_whitespace s1)
    as Hone.
  { destruct s1 as [|c r]; [done|]. intros _. simpl in *. by rewrite Hws. }
  destruct (symbol_type (head s1)) as [ty|] eqn:Hsym; cbn [fst snd Literal].
  { apply symbol_type_Some in Hsym as (_ & _ & _ & Hz & _ & -> & _).
    apply Hone. intros E. by rewrite E in Hz. }
  destruct (isLetter (head s1)) eqn:HL; cbn [fst snd Literal].
  { apply strip_run. intros c Hc. by destruct (isLetter_facts c Hc) as (_ & ? & _). }
  destruct (isDigit (head s1)) eqn:HD; cbn [fst snd Literal].
  { apply strip_run. intros c Hc. by destruct (isDigit_facts c Hc) as (_ & ? & _). }
  destruct (Ascii.eqb_spec (head s1) Ascii.zero) as [Hz|Hz]; cbn [fst snd Literal].
  { destruct s1 as [|c r]; [done|].
    by destruct (ascii_text_head _ Htext1 ltac:(done)) as [_ ?]. }
  assert (s1 <> "") as Hne by (intros E; by rewrite E in Hz).
  destruct (ascii_text_head _ Htext1 Hne) as [Ha _].
  rewrite (string_of_byte_ascii _ Ha). by apply Hone.
Qed.

Lemma ascii_text_next s : ascii_text s = true -> ascii_text (snd (next s)) = true.
Proof.
  intros Htext. unfold next, ascii_text in *.
  pose proof (all_drop_while _ isWhitespace s Htext) as Htext1.
  set (s1 := drop_while isWhitespace s) in *.
  destruct (symbol_type (head s1)); cbn [snd]; [by apply all_tail|].
  destruct (isLetter (head s1)); cbn [snd]; [by apply all_drop_while|].
  destruct (isDigit (head s1)); cbn [snd]; [by apply all_drop_while|].
  destruct (Ascii.eqb (head s1) Ascii.zero); cbn [snd]; by apply all_tail.
Qed.

Lemma count_lexemes_rest s :
  (count_lexemes (snd (next s)) <= count_lexemes s - 1)%nat.
Proof.
  destruct (drop_while isWhitespace s) as [|c r] eqn:E.
  - rewrite <- next_drop_while, E, next_empty. cbn [snd].
    change (count_lexemes "") with 0%nat. lia.
  - assert (drop_while isWhitespace s <> "") as Hne by (by rewrite E).
    apply count_lexemes_next in Hne. lia.
Qed.

Lemma nexts_literals n :
  forall s,
    ascii_text s = true -> (count_lexemes s <= n)%nat ->
    literals (nexts n s) = strip_whitespace s.
Proof.
  induction n as [|n IH]; intros s Htext Hn.
  - assert (count_lexemes s = 0%nat) as H0 by lia.
    pose proof (next_literal s Htext) as H.
    by rewrite (count_lexemes_zero s H0) in H.
  - simpl. rewrite IH.
    + by apply next_literal.
    + by apply ascii_text_next.
    + pose proof (count_lexemes_rest s). lia.
Qed.

Lemma count_from_le prev s : (count_from prev s <= String.length s)%nat.
Proof.
  revert prev. induction s as [|c r IH]; intros prev; simpl; [done|].
  specialize (IH (Some c)). destruct (starts_lexeme prev c); lia.
Qed.

(** X4.  On ASCII text without the byte 0 nothing is lost and nothing is
    made up: the literals of the tokens, one after the other, are the input
    with its whitespace taken out, once at least as many tokens are pulled
    as the input has bytes. *)
Theorem literals_give_input_back inp n :
  ascii_text inp = true -> (String.length inp <= n)%nat ->
  len inp + Z.of_nat n <= max_int ->
  exists toks,
    scan n inp = Ok toks /\ literals toks = strip_whitespace inp.
Proof.
  intros Htext Hn Hroom. exists (nexts n inp).
  split; [by apply scan_spec|]. apply nexts_literals; [done|].
  pose proof (count_from_le None inp). unfold count_lexemes. lia.
Qed.

Lemma literals_give_input_back_witness :
  exists toks,
    scan 12 "let x = 5+y;" = Ok toks /\ literals toks = "letx=5+y;".
Proof.
  apply (literals_give_input_back "let x = 5+y;" 12);
    [reflexivity | simpl; lia | by vm_compute].
Defined.

(** X5.  Scanning reaches the end within as many calls as the input has
    bytes, whatever the input holds: the token of every call after those is
    EOF with the empty literal. *)
Theorem EOF_after_length_calls inp n :
  len inp + Z.of_nat n <= max_int ->
  exists toks,
    scan n inp = Ok toks
    /\ forall (j : nat) tok,
         (String.length inp <= j)%nat -> toks !! j = Some tok ->
         tok = mkToken EOF "".
Proof.
  intros Hroom. exists (nexts n inp). split; [by apply scan_spec|].
  intros j tok Hj Hlook.
  destruct (nexts_count_lexemes (count_lexemes inp) inp eq_refl)
    as (toks & Hlen & Hn & _).
  pose proof (count_from_le None inp) as Hle. fold (count_lexemes inp) in Hle.
  assert (j < n)%nat as Hjn.
  { apply lookup_lt_Some in Hlook. by rewrite length_nexts in Hlook. }
  replace n with (count_lexemes inp + (n - count_lexemes inp))%nat in Hlook by lia.
  rewrite Hn, lookup_app_r in Hlook by lia.
  by apply lookup_repeat in Hlook.
Qed.

Lemma EOF_after_length_calls_witness :
  exists toks,
    scan 5 "a+b" = Ok toks
    /\ forall (j : nat) tok,
         (3 <= j)%nat -> toks !! j = Some tok -> tok = mkToken EOF "".
Proof. apply (EOF_after_length_calls "a+b" 5). by vm_compute. Defined.

(** ** Two inputs joined by whitespace *)

Lemma run_before_whitespace p x w b :
  p w = false ->
  take_while p (x +:+ String w b) = take_while p x
  /\ drop_while p (x +:+ String w b) = drop_while p x +:+ String w b.
Proof.
  intros Hw. rewrite take_while_app, drop_while_app.
  destruct (all p x) eqn:Hall; [|done].
  rewrite (take_while_all p x Hall), (drop_while_all p x Hall).
  simpl. rewrite Hw. by rewrite app_empty_r.
Qed.

(** A call that finds a lexeme in [a] does not look past the whitespace
    that follows [a]. *)
Lemma next_before_whitespace a w b :
  isWhitespace w = true -> drop_while isWhitespace a <> "" ->
  next (a +:+ String w b) = (fst (next a), snd (next a) +:+ String w b).
Proof.
  intros Hw Hne.
  rewrite <- (next_drop_while (a +:+ String w b)), <- (next_drop_while a).
  rewrite drop_while_app.
  destruct (all isWhitespace a) eqn:Hall.
  { by rewrite (drop_while_all _ _ Hall) in Hne. }
  pose proof (head_drop_while isWhitespace a isWhitespace_zero) as Hhead.
  destruct (drop_while isWhitespace a) as [|c x] eqn:E; [done|].
  cbn [head] in Hhead. destruct (isWhitespace_facts w Hw) as [HLw HDw].
  destruct (run_before_whitespace isLetter (String c x) w b HLw) as [HtL HdL].
  destruct (run_before_whitespace isDigit (String c x) w b HDw) as [HtD HdD].
  unfold next. rewrite app_cons in *. cbn [drop_while]. rewrite Hhead.
  cbn [head tail]. rewrite HtL, HdL, HtD, HdD.
  destruct (symbol_type c); [done|].
  destruct (isLetter c); [done|]. destruct (isDigit c); [done|].
  by destruct (Ascii.eqb c Ascii.zero).
Qed.

Lemma nexts_concat w b k :
  isWhitespace w = true ->
  forall a ta n,
    no_nul a = true ->
    nexts (S k) a = (ta ++ [mkToken EOF ""])%list ->
    Forall (fun t => Type_ t <> EOF) ta ->
    nexts (k + n) (a +:+ String w b) = (ta ++ nexts n b)%list.
Proof.
  intros Hw. induction k as [|k IH]; intros a ta n Hnn Hscan Hall.
  - assert (ta = []) as ->.
    { apply (f_equal (@List.length _)) in Hscan. rewrite List.length_app in Hscan.
      destruct ta; [done | simpl in Hscan; lia]. }
    simpl in Hscan. injection Hscan as Hfst.
    assert (Type_ (fst (next a)) = EOF) as HE by (by rewrite Hfst).
    destruct (next_EOF_no_nul a Hnn HE) as [Hdw _].
    assert (forall m, nexts m (a +:+ String w b) = nexts m b) as Heq.
    { intros [|m]; [done|]. simpl.
      rewrite <- (next_drop_while (a +:+ String w b)), <- (next_drop_while b).
      rewrite drop_while_app.
      destruct (all isWhitespace a) eqn:Ha.
      - simpl. by rewrite Hw.
      - by apply drop_while_nonempty in Ha. }
    apply Heq.
  - destruct ta as [|t ta].
    { apply (f_equal (@List.length _)) in Hscan.
      rewrite length_nexts in Hscan. simpl in Hscan. lia. }
    change (nexts (S (S k)) a) with (fst (next a) :: nexts (S k) (snd (next a)))
      in Hscan.
    simpl in Hscan. injection Hscan as Hfst Hrest.
    apply Forall_cons in Hall as [Ht Hall].
    assert (drop_while isWhitespace a <> "") as Hne.
    { intros E. rewrite <- next_drop_while, E, next_empty in Hfst.
      by rewrite <- Hfst in Ht. }
    change (S k + n)%nat with (S (k + n)). cbn [nexts].
    rewrite (next_before_whitespace a w b Hw Hne). cbn [fst snd].
    rewrite Hfst. simpl. f_equal.
    apply IH; [by apply no_nul_next | done | done].
Qed.

(** X6.  Scanning composes over whitespace: when an input [a] without the
    byte 0 yields the tokens [ta] and then EOF, the input [a], a whitespace
    byte, [b] yields [ta] followed by the tokens of [b]. *)
Theorem scan_joined_inputs a b w k n ta :
  isWhitespace w = true -> no_nul a = true ->
  scan (S k) a = Ok (ta ++ [mkToken EOF ""])%list ->
  Forall (fun t => Type_ t <> EOF) ta ->
  len (a +:+ String w b) + Z.of_nat (S k + n) <= max_int ->
  exists tb,
    scan n b = Ok tb /\ scan (k + n) (a +:+ String w b) = Ok (ta ++ tb)%list.
Proof.
  intros Hw Hnn Hscan Hall Hroom.
  assert (len (a +:+ String w b) = len a + 1 + len b) as Hlen.
  { unfold len. rewrite length_append. simpl. lia. }
  assert (0 <= len a /\ 0 <= len b) as [? ?] by (unfold len; lia).
  rewrite scan_spec in Hscan by lia. injection Hscan as Hscan.
  exists (nexts n b). rewrite !scan_spec by lia.
  split; [done|]. f_equal. by apply nexts_concat.
Qed.

Lemma scan_joined_inputs_witness :
  exists tb,
    scan 3 "y;" = Ok tb
    /\ scan 5 ("let x" +:+ String " " "y;")
       = Ok ([mkToken LET "let"; mkToken IDENT "x"] ++ tb)%list.
Proof.
  apply (scan_joined_inputs "let x" "y;" " " 2 3 [mkToken LET "let"; mkToken IDENT "x"]).
  - reflexivity.
  - reflexivity.
  - vm_compute. reflexivity.
  - repeat constructor; discriminate.
  - by vm_compute.
Defined.

(** ** What a token's type says about its literal *)

Lemma lexeme_token_runs tok :
  lexeme_token tok ->
  (Type_ tok = INT -> all isDigit (Literal tok) = true)
  /\ (In (Type_ tok) [IDENT; FUNCTION; LET] -> all isLetter (Literal tok) = true)
  /\ (In (Type_ tok) fixed_symbols -> Literal tok = Type_ tok).
Proof.
  intros [c ty Hsym|w Hne Hall|w Hne Hall| |c Hc]; cbn [Type_ Literal].
  - pose proof (fixed_symbols_length _ (all_fixed_symbols _ _ Hsym)) as Hlen.
    apply symbol_type_Some in Hsym as (_ & _ & _ & _ & Hty & _).
    split; [|split].
    + intros ->. done.
    + simpl. intros [<-|[<-|[<-|[]]]]; done.
    + done.
  - split; [|split].
    + intros E. destruct (LookupIdent_range w) as [[E' _]|[[E' _]|[E' _]]];
        by rewrite E' in E.
    + done.
    + intros H%fixed_symbols_length. pose proof (LookupIdent_length w). lia.
  - split; [|split].
    + done.
    + simpl. intros [H|[H|[H|[]]]]; done.
    + intros H%fixed_symbols_length. done.
  - split; [|split].
    + done.
    + simpl. intros [H|[H|[H|[]]]]; done.
    + intros H%fixed_symbols_length. done.
  - split; [|split].
    + done.
    + simpl. intros [H|[H|[H|[]]]]; done.
    + intros H%fixed_symbols_length. done.
Qed.

(** X7.  The literal of an INT token holds digits only, the literal of an
    IDENT or keyword token letters and underscores only, and the literal of
    a fixed-symbol token is the very string that is its type. *)
Theorem literal_fits_type inp l :
  reachable inp l -> position l < max_int -> len inp < max_int ->
  exists tok l',
    NextToken l = Ok (tok, l')
    /\ (Type_ tok = INT -> all isDigit (Literal tok) = true)
    /\ (In (Type_ tok) [IDENT; FUNCTION; LET] -> all isLetter (Literal tok) = true)
    /\ (In (Type_ tok) fixed_symbols -> Literal tok = Type_ tok).
Proof.
  intros Hr Hlt Hlen.
  destruct (NextToken_reachable inp l Hr Hlt Hlen) as (l' & H & _).
  exists (fst (next (rest l))), l'. split; [done|].
  apply lexeme_token_runs, next_shape.
Qed.

Lemma literal_fits_type_witness :
  exists tok l',
    NextToken {| input := "42+x"; position := 0; readPosition := 1; ch := "4" |}
    = Ok (tok, l')
    /\ (Type_ tok = INT -> all isDigit (Literal tok) = true)
    /\ (In (Type_ tok) [IDENT; FUNCTION; LET] -> all isLetter (Literal tok) = true)
    /\ (In (Type_ tok) fixed_symbols -> Literal tok = Type_ tok).
Proof.
  apply (literal_fits_type "42+x").
  - apply reachable_New. reflexivity.
  - reflexivity.
  - reflexivity.
Defined.

(** ** The state between calls *)

(** X8.  Between calls the lexer is on the byte it announces: [input] is
    the text given to [New], [position] is never negative, [ch] is the byte
    of the input at [position] and, when [position] is at or past the end,
    the sentinel 0. *)
Theorem ch_is_byte_at_position inp l :
  reachable inp l ->
  input l = inp /\ 0 <= position l
  /\ (position l < len inp -> index inp (position l) = Ok (ch l))
  /\ (len inp <= position l -> ch l = Ascii.zero).
Proof.
  intros Hr. destruct (reachable_wf _ _ Hr) as [[Hp _ Hc] Hin].
  unfold rest in Hc. rewrite Hin in Hc.
  pose proof (length_drop (Z.to_nat (position l)) inp) as Hl.
  split_and!; try done; try lia.
  - intros Hlt. unfold index.
    destruct (Z.ltb_spec (position l) 0) as [?|_]; [lia|].
    rewrite get_drop. destruct (drop _ inp) as [|c r]; [|by rewrite Hc].
    simpl in Hl. unfold len in Hlt. lia.
  - intros Hle. rewrite Hc, drop_all; [done|]. unfold len in Hle. lia.
Qed.

Lemma ch_is_byte_at_position_witness :
  input {| input := "a b"; position := 1; readPosition := 2; ch := " " |} = "a b"
  /\ 0 <= 1
  /\ (1 < len "a b" -> index "a b" 1 = Ok " "%char)
  /\ (len "a b" <= 1 ->
      ch {| input := "a b"; position := 1; readPosition := 2; ch := " " |}
      = Ascii.zero).
Proof.
  apply (ch_is_byte_at_position "a b"
           {| input := "a b"; position := 1; readPosition := 2; ch := " " |}).
  eapply reachable_NextToken; [apply reachable_New; reflexivity|].
  vm_compute. reflexivity.
Defined.

(** X9.  A call never touches [input] and always moves on: [position]
    grows by at least one, and by no more than takes it one past the end of
    the input (or one past where it was, once it is past the end). *)
Theorem NextToken_moves_forward inp l :
  reachable inp l -> position l < max_int -> len inp < max_int ->
  exists tok l',
    NextToken l = Ok (tok, l') /\ input l' = inp
    /\ position l < position l' <= Z.max (position l) (len inp) + 1.
Proof.
  intros Hr Hlt Hlen. destruct (reachable_wf _ _ Hr) as [Hwf Hin].
  destruct (NextToken_spec l Hwf Hlt) as (l' & H & _ & Hin' & Hpos & _);
    [by rewrite Hin|].
  exists (fst (next (rest l))), l'. rewrite Hin in *. done.
Qed.

Lemma NextToken_moves_forward_witness :
  exists tok l',
    NextToken {| input := "ab  c"; position := 0; readPosition := 1; ch := "a" |}
    = Ok (tok, l')
    /\ input l' = "ab  c"
    /\ 0 < position l' <= Z.max 0 (len "ab  c") + 1.
Proof.
  apply (NextToken_moves_forward "ab  c").
  - apply reachable_New. reflexivity.
  - reflexivity.
  - reflexivity.
Defined.

(** ** [skipWhitespace] *)

(** X10.  [skipWhitespace] leaves the lexer on the first byte, from the
    current one on, that is not whitespace, or at the end: the current
    character is then no whitespace, the bytes passed over are all
    whitespace, [input] is untouched, and a second [skipWhitespace] changes
    nothing. *)
Theorem skipWhitespace_lands inp l :
  reachable inp l -> len inp <= max_int ->
  exists l',
    skipWhitespace l = Ok l' /\ input l' = inp
    /\ position l <= position l'
    /\ isWhitespace (ch l') = false
    /\ all isWhitespace
         (String.substring (Z.to_nat (position l))
            (Z.to_nat (position l' - position l)) inp) = true
    /\ skipWhitespace l' = Ok l'.
Proof.
  intros Hr Hlen. destruct (reachable_wf _ _ Hr) as [Hwf Hin].
  destruct (while_ch_spec isWhitespace isWhitespace_zero (loop_fuel l) l Hwf
              ltac:(by rewrite Hin) (loop_fuel_enough _ l))
    as (l' & Hrun & Hwf' & Hin' & Hpos & Hrest).
  assert (isWhitespace (ch l') = false) as Hch.
  { rewrite (wf_ch l' Hwf'), Hrest. by apply head_drop_while. }
  exists l'. split_and!; try done.
  - congruence.
  - lia.
  - rewrite Hpos, <- Hin, substring_drop. fold (rest l).
    replace (Z.to_nat _)
      with (String.length (take_while isWhitespace (rest l))) by lia.
    rewrite substring_take_while. apply all_take_while.
  - by apply skipWhitespace_id.
Qed.

Lemma skipWhitespace_lands_witness :
  exists l',
    skipWhitespace {| input := "a  b"; position := 1; readPosition := 2; ch := " " |}
    = Ok l'
    /\ input l' = "a  b"
    /\ 1 <= position l'
    /\ isWhitespace (ch l') = false
    /\ all isWhitespace
         (String.substring (Z.to_nat 1) (Z.to_nat (position l' - 1)) "a  b") = true
    /\ skipWhitespace l' = Ok l'.
Proof.
  apply (skipWhitespace_lands "a  b"
           {| input := "a  b"; position := 1; readPosition := 2; ch := " " |}).
  - eapply reachable_NextToken; [apply reachable_New; reflexivity|].
    vm_compute. reflexivity.
  - by vm_compute.
Defined.

(** ** Literals as pieces of the input *)

Lemma substring_app_prefix a b : String.substring 0 (String.length a) (a +:+ b) = a.
Proof.
  induction a as [|c r IH]; [by destruct b|]. rewrite app_cons. simpl. by rewrite IH.
Qed.

(** On ASCII text the literal of a token other than EOF is what the call
    took from the input, after the whitespace. *)
Lemma next_split s :
  all is_ascii s = true -> Type_ (fst (next s)) <> EOF ->
  drop_while isWhitespace s = Literal (fst (next s)) +:+ snd (next s).
Proof.
  intros Ha. unfold next, newToken.
  pose proof (all_drop_while _ isWhitespace s Ha) as Ha1.
  set (s1 := drop_while isWhitespace s) in *.
  assert (head s1 <> Ascii.zero -> s1 = String (head s1) "" +:+ tail s1) as Hone.
  { destruct s1 as [|c r]; [done | by intros _]. }
  destruct (symbol_type (head s1)) as [ty|] eqn:Hsym; cbn [fst snd Literal Type_].
  { apply symbol_type_Some in Hsym as (_ & _ & _ & Hz & _ & -> & _). by intros _; apply Hone. }
  destruct (isLetter (head s1)); cbn [fst snd Literal Type_].
  { intros _. symmetry. apply take_drop_while. }
  destruct (isDigit (head s1)); cbn [fst snd Literal Type_].
  { intros _. symmetry. apply take_drop_while. }
  destruct (Ascii.eqb_spec (head s1) Ascii.zero) as [Hz|Hz];
    cbn [fst snd Literal Type_]; [done|].
  intros _. rewrite string_of_byte_ascii; [by apply Hone|].
  destruct s1 as [|c r]; [done|]. simpl in Ha1. by apply andb_prop in Ha1 as [? _].
Qed.

Lemma dispatch_within l tok l' :
  wf l -> position l < len (input l) -> len (input l) <= max_int ->
  dispatch l = Ok (tok, l') -> position l' <= len (input l).
Proof.
  intros Hwf Hlt Hlen. unfold dispatch.
  assert (forall t, advance t l = Ok (tok, l') -> position l' <= len (input l)) as Hadv.
  { intros t H. apply (advance_keeps _ _ _ _ Hwf) in H as (_ & _ & _ & -> & _).
    simpl. lia. }
  destruct (symbol_type (ch l)); [apply Hadv|].
  destruct (isLetter (ch l)) eqn:HL.
  { destruct (read_run_spec isLetter isLetter_zero l HL Hwf Hlen)
      as (l2 & Hrun & _ & _ & Hpos & _).
    unfold readIdentifier. rewrite Hrun. simpl. intros [= _ <-]. lia. }
  destruct (isDigit (ch l)) eqn:HD.
  { destruct (read_run_spec isDigit isDigit_zero l HD Hwf Hlen)
      as (l2 & Hrun & _ & _ & Hpos & _).
    unfold readNumber. rewrite Hrun. simpl. intros [= _ <-]. lia. }
  destruct (Ascii.eqb (ch l) Ascii.zero); apply Hadv.
Qed.

(** X11.  On an input of ASCII bytes the literal of every token other than
    EOF is the piece of the input that ends at the lexer's new position: the
    call stops inside the input, and slicing the input from the new position
    less the literal's length up to the new position gives the literal. *)
Theorem literal_is_input_slice inp l :
  reachable inp l -> all is_ascii inp = true ->
  position l < max_int -> len inp < max_int ->
  exists tok l',
    NextToken l = Ok (tok, l')
    /\ (Type_ tok <> EOF ->
        position l' <= len inp
        /\ slice inp (position l' - len (Literal tok)) (position l')
           = Ok (Literal tok)).
Proof.
  intros Hr Hascii Hlt Hlen. destruct (reachable_wf _ _ Hr) as [Hwf Hin].
  destruct (NextToken_spec l Hwf Hlt) as (l' & H & Hwf' & Hin' & _ & Hrest');
    [by rewrite Hin|].
  exists (fst (next (rest l))), l'. split; [done|]. intros HE.
  rewrite NextToken_eq in H. apply bind_Ok in H as (l1 & H1 & Hd).
  destruct (skipWhitespace_spec l Hwf) as (l1' & H1' & Hwf1 & Hin1 & _ & Hrest1 & Hws1);
    [rewrite Hin; lia|].
  rewrite H1 in H1'. injection H1' as <-.
  assert (all is_ascii (rest l) = true) as Har.
  { unfold rest. rewrite Hin. clear -Hascii. generalize (Z.to_nat (position l)).
    intros n. revert inp Hascii. induction n as [|n IH]; intros [|c r]; try done.
    simpl. intros [_ ?]%andb_prop. by apply IH. }
  pose proof (next_split (rest l) Har HE) as Hsplit. rewrite <- Hrest1, <- Hrest' in Hsplit.
  pose proof (wf_position l1 Hwf1) as Hp1.
  assert (rest l1 <> "") as Hne.
  { intros E. rewrite <- next_drop_while, <- Hrest1, E, next_empty in HE. done. }
  pose proof (rest_nonempty l1 ltac:(lia) Hne) as Hlt1.
  assert (input l1 = inp) as I1 by congruence.
  assert (input l' = inp) as I' by congruence.
  pose proof (dispatch_within l1 _ _ Hwf1 Hlt1 ltac:(rewrite I1; lia) Hd) as Hle.
  rewrite I1 in Hle, Hlt1. split; [done|].
  pose proof (wf_position l' Hwf') as Hp'.
  pose proof (length_rest l1 ltac:(lia)) as Hl1.
  pose proof (length_rest l' ltac:(lia)) as Hl'.
  rewrite I1 in Hl1. rewrite I' in Hl'.
  pose proof (f_equal String.length Hsplit) as Hlens. rewrite length_append in Hlens.
  set (lit := Literal (fst (next (rest l)))) in *.
  assert (position l' - len lit = position l1) as Hstart by (unfold len; lia).
  rewrite Hstart. unfold slice.
  destruct (Z.leb_spec 0 (position l1)); [|lia].
  destruct (Z.leb_spec (position l1) (position l')); [|lia].
  destruct (Z.leb_spec (position l') (len inp)); [|lia].
  simpl. f_equal. rewrite substring_drop.
  assert (drop (Z.to_nat (position l1)) inp = rest l1) as ->
    by (unfold rest; by rewrite I1).
  rewrite Hsplit.
  replace (Z.to_nat (position l' - position l1)) with (String.length lit)
    by (unfold len in *; lia).
  apply substring_app_prefix.
Qed.

Lemma literal_is_input_slice_witness :
  exists tok l',
    NextToken {| input := "a  foo+1"; position := 1; readPosition := 2; ch := " " |}
    = Ok (tok, l')
    /\ (Type_ tok <> EOF ->
        position l' <= len "a  foo+1"
        /\ slice "a  foo+1" (position l' - len (Literal tok)) (position l')
           = Ok (Literal tok)).
Proof.
  apply (literal_is_input_slice "a  foo+1").
  - eapply reachable_NextToken; [apply reachable_New; reflexivity|].
    vm_compute. reflexivity.
  - reflexivity.
  - reflexivity.
  - reflexivity.
Defined.

(** ** Runs are taken whole *)

Lemma next_maximal s :
  (In (Type_ (fst (next s))) [IDENT; FUNCTION; LET] ->
   isLetter (head (snd (next s))) = false)
  /\ (Type_ (fst (next s)) = INT -> isDigit (head (snd (next s))) = false).
Proof.
  unfold next, newToken. set (s1 := drop_while isWhitespace s).
  destruct (symbol_type (head s1)) as [ty|] eqn:Hsym; cbn [fst snd Type_].
  { pose proof (fixed_symbols_length _ (all_fixed_symbols _ _ Hsym)) as Hlen.
    split; [simpl; intros [<-|[<-|[<-|[]]]]; done | by intros ->]. }
  destruct (isLetter (head s1)); cbn [fst snd Type_].
  { split; [intros _; by apply head_drop_while|].
    intros E. destruct (LookupIdent_range (take_while isLetter s1))
      as [[E' _]|[[E' _]|[E' _]]]; by rewrite E' in E. }
  destruct (isDigit (head s1)); cbn [fst snd Type_].
  { split; [simpl; intros [H|[H|[H|[]]]]; done | intros _; by apply head_drop_while]. }
  destruct (Ascii.eqb (head s1) Ascii.zero); cbn [fst snd Type_];
    (split; [simpl; intros [H|[H|[H|[]]]]; done | done]).
Qed.

(** X12.  Identifiers and numbers are taken whole: after a call that
    returns an IDENT or keyword token the current character is no letter and
    no underscore, and after a call that returns an INT token it is no
    digit. *)
Theorem run_is_taken_whole inp l :
  reachable inp l -> position l < max_int -> len inp < max_int ->
  exists tok l',
    NextToken l = Ok (tok, l')
    /\ (In (Type_ tok) [IDENT; FUNCTION; LET] -> isLetter (ch l') = false)
    /\ (Type_ tok = INT -> isDigit (ch l') = false).
Proof.
  intros Hr Hlt Hlen. destruct (reachable_wf _ _ Hr) as [Hwf Hin].
  destruct (NextToken_spec l Hwf Hlt) as (l' & H & Hwf' & _ & _ & Hrest');
    [by rewrite Hin|].
  exists (fst (next (rest l))), l'. split; [done|].
  rewrite (wf_ch l' Hwf'), Hrest'. apply next_maximal.
Qed.

Lemma run_is_taken_whole_witness :
  exists tok l',
    NextToken {| input := "abc1"; position := 0; readPosition := 1; ch := "a" |}
    = Ok (tok, l')
    /\ (In (Type_ tok) [IDENT; FUNCTION; LET] -> isLetter (ch l') = false)
    /\ (Type_ tok = INT -> isDigit (ch l') = false).
Proof.
  apply (run_is_taken_whole "abc1").
  - apply reachable_New. reflexivity.
  - reflexivity.
  - reflexivity.
Defined.
